(** * tuya-local: the device-config matching and value-mapping engine

    A shallow embedding of [custom_components/tuya_local/helpers/device_config.py]
    and the properties of it that the specification states.

    The file has three layers:
    - [Py]: the part of the Python runtime the module relies on (values,
      [str], [int], [float], [round], [==], [<], [*], [/]);
    - the configuration data model and the functions of the module, under
      the names they have in the source;
    - the theorems. *)

From Stdlib Require Import ZArith Ascii String List Lia SpecFloat.
From stdpp Require Import base option list gmap strings pretty.

Local Open Scope string_scope.
Local Open Scope Z_scope.
Local Open Scope list_scope.

(** ** Outcomes of a call

    A call returns a value, raises an exception, or (in the fuel-indexed
    model of the two recursive methods) has not finished within the fuel. *)

Inductive exn : Type :=
  | ValueError (msg : string)
  | TypeError
  | ZeroDivisionError
  | OverflowError
  | AttributeError
  | KeyError.

Inductive outcome (A : Type) : Type :=
  | Ret (a : A)
  | Raise (e : exn)
  | OutOfFuel.

Arguments Ret {A} a.
Arguments Raise {A} e.
Arguments OutOfFuel {A}.

Definition bind {A B : Type} (x : outcome A) (k : A -> outcome B) : outcome B :=
  match x with
  | Ret a => k a
  | Raise e => Raise e
  | OutOfFuel => OutOfFuel
  end.

Notation "x <- c ; k" := (bind c (fun x => k))
  (at level 20, c at level 100, k at level 200, only parsing).
Notation "' p <- c ; k" := (bind c (fun p => k))
  (at level 20, p pattern, c at level 100, k at level 200, only parsing).

#[global] Instance outcome_fmap : FMap outcome :=
  fun A B f x => bind x (fun a => Ret (f a)).

(** [try: c except ValueError: h] *)
Definition except_ValueError {A : Type} (c : outcome A) (h : outcome A) : outcome A :=
  match c with
  | Raise (ValueError _) => h
  | _ => c
  end.

Definition returns {A : Type} (x : outcome A) : Prop := exists a, x = Ret a.

(** ** The Python runtime *)

Module Py.

(** Python's [float] is IEEE 754 binary64: [spec_float] at precision 53
    and maximal exponent 1024. *)
Definition prec : Z := 53.
Definition emax : Z := 1024.

Inductive val : Type :=
  | VNone
  | VBool (b : bool)
  | VInt (z : Z)
  | VFloat (f : spec_float)
  | VStr (s : string).

(** The four classes a dps can be declared with. *)
Inductive type : Type := Tbool | Tint | Tstr | Tfloat.

#[global] Instance spec_float_eq_dec : EqDecision spec_float.
Proof. solve_decision. Defined.

#[global] Instance val_eq_dec : EqDecision val.
Proof. solve_decision. Defined.

#[global] Instance type_eq_dec : EqDecision type.
Proof. solve_decision. Defined.

(** *** Floats *)

Definition fmul (x y : spec_float) : spec_float := SFmul prec emax x y.
Definition fdiv (x y : spec_float) : spec_float := SFdiv prec emax x y.

Definition f_is_zero (x : spec_float) : bool :=
  match x with S754_zero _ => true | _ => false end.

(** The float nearest to the rational [n / d] ([d > 0]), ties to even. *)
Definition f_of_ratio (n : Z) (d : positive) : spec_float :=
  match n with
  | Z0 => S754_zero false
  | Zpos p => SFdiv prec emax (S754_finite false p 0) (S754_finite false d 0)
  | Zneg p => SFdiv prec emax (S754_finite true p 0) (S754_finite false d 0)
  end.

(** [float(z)] for an int [z]: [OverflowError] when out of range. *)
Definition f_of_Z (z : Z) : outcome spec_float :=
  match binary_normalize prec emax z 0 false with
  | S754_infinity _ => Raise OverflowError
  | f => Ret f
  end.

(** [a / b] on ints: the correctly rounded quotient. *)
Definition int_truediv (a b : Z) : outcome spec_float :=
  match b with
  | Z0 => Raise ZeroDivisionError
  | Zpos d =>
      match f_of_ratio a d with
      | S754_infinity _ => Raise OverflowError
      | f => Ret f
      end
  | Zneg d =>
      match f_of_ratio (- a) d with
      | S754_infinity _ => Raise OverflowError
      | f => Ret f
      end
  end.

(** The integer nearest to [m * 2^e], ties to even. *)
Definition round_half_even_pow2 (m e : Z) : Z :=
  if 0 <=? e then m * 2 ^ e
  else
    let d := 2 ^ (- e) in
    let q := m / d in
    let r := m mod d in
    match 2 * r ?= d with
    | Lt => q
    | Gt => q + 1
    | Eq => if Z.even q then q else q + 1
    end.

(** [round(x)] for a float [x]. *)
Definition f_round (x : spec_float) : outcome Z :=
  match x with
  | S754_nan => Raise (ValueError "cannot convert float NaN to integer")
  | S754_infinity _ => Raise OverflowError
  | S754_zero _ => Ret 0
  | S754_finite s m e =>
      let r := round_half_even_pow2 (Zpos m) e in
      Ret (if s then - r else r)
  end.

(** [int(x)] for a float [x]: truncation towards zero. *)
Definition f_trunc (x : spec_float) : outcome Z :=
  match x with
  | S754_nan => Raise (ValueError "cannot convert float NaN to integer")
  | S754_infinity _ => Raise OverflowError
  | S754_zero _ => Ret 0
  | S754_finite s m e =>
      let r := if 0 <=? e then Zpos m * 2 ^ e else Zpos m / 2 ^ (- e) in
      Ret (if s then - r else r)
  end.

(** Exact comparison of a float with an int, as CPython does it;
    [None] when the float is a NaN. *)
Definition f_compare_Z (x : spec_float) (z : Z) : option comparison :=
  match x with
  | S754_nan => None
  | S754_infinity s => Some (if s then Lt else Gt)
  | S754_zero _ => Some (0 ?= z)
  | S754_finite s m e =>
      let n := if s then Zneg m else Zpos m in
      Some (if 0 <=? e then (n * 2 ^ e ?= z) else (n ?= z * 2 ^ (- e)))
  end.

(** *** Text of numbers *)

Definition is_space (c : ascii) : bool :=
  let n := Z.of_nat (nat_of_ascii c) in
  ((9 <=? n) && (n <=? 13)) || ((28 <=? n) && (n <=? 32)).

Fixpoint lstrip (l : list ascii) : list ascii :=
  match l with
  | c :: l' => if is_space c then lstrip l' else l
  | [] => []
  end.

(** [s.strip()], as [int] and [float] apply it to their argument. *)
Definition strip (s : string) : list ascii :=
  rev (lstrip (rev (lstrip (list_ascii_of_string s)))).

Definition digit_val (c : ascii) : option Z :=
  let n := Z.of_nat (nat_of_ascii c) in
  if (48 <=? n) && (n <=? 57) then Some (n - 48) else None.

(** The rest of a [digitpart] after a digit: digits, each optionally
    preceded by one underscore. Returns the number read so far, the
    count of digits and the unread input. *)
Fixpoint digits_rest (acc : Z) (n : Z) (l : list ascii) : Z * Z * list ascii :=
  match l with
  | c :: l' =>
      match digit_val c with
      | Some d => digits_rest (10 * acc + d) (n + 1) l'
      | None =>
          if Ascii.eqb c "_"%char then
            match l' with
            | c2 :: l'' =>
                match digit_val c2 with
                | Some d => digits_rest (10 * acc + d) (n + 1) l''
                | None => (acc, n, l)
                end
            | [] => (acc, n, l)
            end
          else (acc, n, l)
      end
  | [] => (acc, n, l)
  end.

(** [digitpart ::= digit (["_"] digit)*], continuing the number [acc]. *)
Definition digitpart (acc : Z) (l : list ascii) : option (Z * Z * list ascii) :=
  match l with
  | c :: l' =>
      match digit_val c with
      | Some d => Some (digits_rest (10 * acc + d) 1 l')
      | None => None
      end
  | [] => None
  end.

Definition sign_of (l : list ascii) : bool * list ascii :=
  match l with
  | c :: l' =>
      if Ascii.eqb c "-"%char then (true, l')
      else if Ascii.eqb c "+"%char then (false, l')
      else (false, l)
  | [] => (false, l)
  end.

(** [int(s)] for a string [s], in base 10; [None] is [ValueError]. Strings
    are sequences of ASCII characters here, and the cap that later versions
    of Python put on the number of digits is not modelled. *)
Definition parse_int (s : string) : option Z :=
  let '(neg, l) := sign_of (strip s) in
  match digitpart 0 l with
  | Some (z, _, []) => Some (if neg then - z else z)
  | _ => None
  end.

Definition lower (c : ascii) : ascii :=
  let n := nat_of_ascii c in
  if ((65 <=? n) && (n <=? 90))%nat then ascii_of_nat (n + 32) else c.

(** The float nearest to [(-1)^neg * m * 10^e]. *)
Definition f_of_decimal (neg : bool) (m e : Z) : spec_float :=
  match m with
  | Zpos p =>
      let n := if 0 <=? e then Zpos p * 10 ^ e else Zpos p in
      let d := if 0 <=? e then 1%positive else Z.to_pos (10 ^ (- e)) in
      f_of_ratio (if neg then - n else n) d
  | _ => S754_zero neg
  end.

(** The exponent of a float literal: [("e" | "E") ["+" | "-"] digitpart]. *)
Definition exponent (l : list ascii) : option (Z * list ascii) :=
  match l with
  | c :: l' =>
      if Ascii.eqb (lower c) "e"%char then
        let '(neg, l'') := sign_of l' in
        match digitpart 0 l'' with
        | Some (x, _, rest) => Some (if neg then - x else x, rest)
        | None => None
        end
      else None
  | [] => Some (0, [])
  end.

(** [float(s)] for a string [s]; [None] is [ValueError]. *)
Definition parse_float (s : string) : option spec_float :=
  let '(neg, l) := sign_of (strip s) in
  let word := string_of_list_ascii (map lower l) in
  if String.eqb word "inf" || String.eqb word "infinity" then Some (S754_infinity neg)
  else if String.eqb word "nan" then Some S754_nan
  else
    let '(ip, l1) :=
      match digitpart 0 l with
      | Some (z, _, r) => (Some z, r)
      | None => (None, l)
      end in
    let '(m, nfrac, seen, l2) :=
      match l1 with
      | c :: r =>
          if Ascii.eqb c "."%char then
            match digitpart (default 0 ip) r with
            | Some (z, n, r') => (z, n, true, r')
            | None => (default 0 ip, 0, bool_decide (is_Some ip), r)
            end
          else (default 0 ip, 0, bool_decide (is_Some ip), l1)
      | [] => (default 0 ip, 0, bool_decide (is_Some ip), l1)
      end in
    if seen then
      match exponent l2 with
      | Some (x, []) => Some (f_of_decimal neg m (x - nfrac))
      | _ => None
      end
    else None.

Definition ndigits (z : Z) : Z := Z.of_nat (String.length (pretty z)).

(** [floor (n / d * 10^(-s))] for positive [n] and [d]. *)
Definition scaled_floor (n d s : Z) : Z :=
  if 0 <=? s then n / (d * 10 ^ s) else (n * 10 ^ (- s)) / d.

(** The shortest decimal [D * 10^s] that reads back as the float
    [m * 2^e], tried with [k], [k+1], ... significant digits; of the two
    [k]-digit neighbours of the value the nearer one wins. *)
Fixpoint shortest (fuel : nat) (k : Z) (x : spec_float) (n d p : Z) : Z * Z :=
  let s := p - k + 1 in
  let lo := scaled_floor n d s in
  let hi := lo + 1 in
  let back c := bool_decide (f_of_decimal false c s = x) in
  (* is the value nearer to [lo] than to [hi]?  2 n / d  vs  (lo + hi) 10^s *)
  let side :=
    if 0 <=? s then (2 * n ?= (lo + hi) * 10 ^ s * d)
    else (2 * n * 10 ^ (- s) ?= (lo + hi) * d) in
  let pick :=
    match back lo, back hi with
    | true, true =>
        match side with
        | Lt => Some lo
        | Gt => Some hi
        | Eq => Some (if Z.even lo then lo else hi)
        end
    | true, false => Some lo
    | false, true => Some hi
    | false, false => None
    end in
  match pick, fuel with
  | Some c, _ => (c, s)
  | None, O => (lo, s)
  | None, S fuel' => shortest fuel' (k + 1) x n d p
  end.

Fixpoint strip_zeros (fuel : nat) (z : Z) : Z :=
  match fuel with
  | O => z
  | S fuel' => if (z mod 10 =? 0) && negb (z =? 0) then strip_zeros fuel' (z / 10) else z
  end.

Definition zeros (n : Z) : string := string_of_list_ascii (repeat "0"%char (Z.to_nat n)).

(** [repr] of a positive finite float [m * 2^e]. *)
Definition repr_finite (m : positive) (e : Z) : string :=
  let n := if 0 <=? e then Zpos m * 2 ^ e else Zpos m in
  let d := if 0 <=? e then 1 else 2 ^ (- e) in
  let p0 := ndigits n - ndigits d in
  let p := if (if 0 <=? p0 then d * 10 ^ p0 <=? n else d <=? n * 10 ^ (- p0))
           then p0 else p0 - 1 in
  let '(c, s) := shortest 17 1 (S754_finite false m e) n d p in
  let decpt := s + ndigits c in
  let ds := pretty (strip_zeros 20 c) in
  let nd := Z.of_nat (String.length ds) in
  if (decpt <=? -4) || (16 <? decpt) then
    let x := decpt - 1 in
    let mant :=
      match ds with
      | String c0 EmptyString => ds
      | String c0 rest => String c0 ("." +:+ rest)
      | EmptyString => ds
      end in
    mant +:+ "e" +:+ (if x <? 0 then "-" else "+")
         +:+ (if Z.abs x <? 10 then "0" else "") +:+ pretty (Z.abs x)
  else if decpt <=? 0 then "0." +:+ zeros (- decpt) +:+ ds
  else if nd <=? decpt then ds +:+ zeros (decpt - nd) +:+ ".0"
  else substring 0 (Z.to_nat decpt) ds +:+ "."
       +:+ substring (Z.to_nat decpt) (Z.to_nat (nd - decpt)) ds.

(** [repr(x)], which is also [str(x)], for a float [x]. *)
Definition f_repr (x : spec_float) : string :=
  match x with
  | S754_nan => "nan"
  | S754_infinity s => if s then "-inf" else "inf"
  | S754_zero s => if s then "-0.0" else "0.0"
  | S754_finite s m e => (if s then "-" else "") +:+ repr_finite m e
  end.

(** *** Values *)

(** [str(v)] *)
Definition str (v : val) : string :=
  match v with
  | VNone => "None"
  | VBool b => if b then "True" else "False"
  | VInt z => pretty z
  | VFloat f => f_repr f
  | VStr s => s
  end.

(** [bool(v)], the truth value of [v]. *)
Definition truthy (v : val) : bool :=
  match v with
  | VNone => false
  | VBool b => b
  | VInt z => negb (z =? 0)
  | VFloat f => negb (f_is_zero f)
  | VStr s => negb (String.eqb s "")
  end.

(** [isinstance(v, t)]; [bool] is a subclass of [int]. *)
Definition isinstance (v : val) (t : type) : bool :=
  match t, v with
  | Tbool, VBool _ => true
  | Tint, (VBool _ | VInt _) => true
  | Tstr, VStr _ => true
  | Tfloat, VFloat _ => true
  | _, _ => false
  end.

(** [isinstance(v, (int, float))] *)
Definition is_number (v : val) : bool := isinstance v Tint || isinstance v Tfloat.

(** A number as arithmetic sees it: a bool counts as the int 0 or 1. *)
Inductive num : Type :=
  | NInt (z : Z)
  | NFloat (f : spec_float).

Definition as_num (v : val) : option num :=
  match v with
  | VBool b => Some (NInt (if b then 1 else 0))
  | VInt z => Some (NInt z)
  | VFloat f => Some (NFloat f)
  | _ => None
  end.

(** The order of two numbers; [None] when a NaN is involved. *)
Definition num_compare (a b : num) : option comparison :=
  match a, b with
  | NInt x, NInt y => Some (x ?= y)
  | NFloat x, NFloat y => SFcompare x y
  | NFloat x, NInt y => f_compare_Z x y
  | NInt x, NFloat y => CompOpp <$> f_compare_Z y x
  end.

(** [a == b] *)
Definition eq (a b : val) : bool :=
  match as_num a, as_num b with
  | Some x, Some y => bool_decide (num_compare x y = Some Eq)
  | None, None =>
      match a, b with
      | VNone, VNone => true
      | VStr s, VStr t => String.eqb s t
      | _, _ => false
      end
  | _, _ => false
  end.

(** [a < b]: defined between numbers and between strings. *)
Definition lt (a b : val) : outcome bool :=
  match as_num a, as_num b with
  | Some x, Some y => Ret (bool_decide (num_compare x y = Some Lt))
  | None, None =>
      match a, b with
      | VStr s, VStr t => Ret (String.ltb s t)
      | _, _ => Raise TypeError
      end
  | _, _ => Raise TypeError
  end.

(** [a > b] *)
Definition gt (a b : val) : outcome bool := lt b a.

Definition num_to_float (a : num) : outcome spec_float :=
  match a with
  | NInt z => f_of_Z z
  | NFloat f => Ret f
  end.

Fixpoint repeat_string (n : nat) (s : string) : string :=
  match n with
  | O => ""
  | S n' => s +:+ repeat_string n' s
  end.

(** [a * b]: the product of two numbers, or a string repeated. *)
Definition mul (a b : val) : outcome val :=
  match as_num a, as_num b with
  | Some (NInt x), Some (NInt y) => Ret (VInt (x * y))
  | Some x, Some y =>
      fx <- num_to_float x; fy <- num_to_float y; Ret (VFloat (fmul fx fy))
  | Some (NInt x), None =>
      match b with
      | VStr s => Ret (VStr (repeat_string (Z.to_nat x) s))
      | _ => Raise TypeError
      end
  | None, Some (NInt y) =>
      match a with
      | VStr s => Ret (VStr (repeat_string (Z.to_nat y) s))
      | _ => Raise TypeError
      end
  | _, _ => Raise TypeError
  end.

(** [a / b]: true division, always a float. *)
Definition truediv (a b : val) : outcome val :=
  match as_num a, as_num b with
  | Some (NInt x), Some (NInt y) => VFloat <$> int_truediv x y
  | Some x, Some y =>
      fx <- num_to_float x; fy <- num_to_float y;
      if f_is_zero fy then Raise ZeroDivisionError else Ret (VFloat (fdiv fx fy))
  | _, _ => Raise TypeError
  end.

(** [int(v)] *)
Definition to_int (v : val) : outcome Z :=
  match v with
  | VNone => Raise TypeError
  | VBool b => Ret (if b then 1 else 0)
  | VInt z => Ret z
  | VFloat f => f_trunc f
  | VStr s =>
      match parse_int s with
      | Some z => Ret z
      | None => Raise (ValueError "invalid literal for int() with base 10")
      end
  end.

(** [float(v)] *)
Definition to_float (v : val) : outcome spec_float :=
  match v with
  | VNone => Raise TypeError
  | VBool b => Ret (if b then binary_normalize prec emax 1 0 false else S754_zero false)
  | VInt z => f_of_Z z
  | VFloat f => Ret f
  | VStr s =>
      match parse_float s with
      | Some f => Ret f
      | None => Raise (ValueError "could not convert string to float")
      end
  end.

(** [round(v)] with one argument: an int. *)
Definition round (v : val) : outcome Z :=
  match v with
  | VBool b => Ret (if b then 1 else 0)
  | VInt z => Ret z
  | VFloat f => f_round f
  | _ => Raise TypeError
  end.

(** [t(v)]: the class [t] called as a constructor. *)
Definition call (t : type) (v : val) : outcome val :=
  match t with
  | Tbool => Ret (VBool (truthy v))
  | Tint => VInt <$> to_int v
  | Tstr => Ret (VStr (str v))
  | Tfloat => VFloat <$> to_float v
  end.

End Py.

Import Py(val(..), type(..), num(..), str, truthy, isinstance, is_number).

(** ** The configuration documents

    The YAML documents the classes wrap, as records. A key that a document
    may leave out is an [option]; a key the code reads with a default
    keeps the absence, so that the code's own default is visible in the
    functions below. Keys for icons and display only are left out. *)

(** A [range] entry. *)
Record range_doc : Type := {
  r_min : option val;
  r_max : option val;
}.

(** An entry of a condition's nested [mapping]. *)
Record submap_doc : Type := {
  s_dps_val : option val;
  s_value : option val;
}.

(** An entry of a mapping's [conditions]. *)
Record condition_doc : Type := {
  c_dps_val : option val;
  c_value : option val;
  c_invalid : option val;
  c_scale : option val;
  c_step : option val;
  (** ["value-redirect"]: [Some None] is the key given as null. *)
  c_value_redirect : option (option string);
  c_range : option range_doc;
  c_mapping : list submap_doc;
}.

(** An entry of a dps's [mapping]. *)
Record mapping_doc : Type := {
  m_dps_val : option val;
  m_value : option val;
  m_scale : option val;
  m_step : option val;
  m_value_redirect : option string;
  m_constraint : option string;
  m_conditions : option (list condition_doc);
  m_range : option range_doc;
}.

(** The names a dps document may give as its [type]. *)
Inductive type_name : Type := boolean | integer | string_ | float | bitfield.

(** An entry of an entity's [dps]. The documents give [id] as an integer:
    the code turns it into the string key of the dps map with [str]. *)
Record dps_doc : Type := {
  d_id : Z;
  d_type : type_name;
  d_name : string;
  d_readonly : bool;
  d_stringify : bool;
  d_hidden : bool;
  d_mapping : list mapping_doc;
  d_range : option range_doc;
}.

(** [primary_entity] and the entries of [secondary_entities]. *)
Record entity_doc : Type := {
  e_entity : string;
  e_name : option string;
  e_dps : list dps_doc;
}.

(** A device config: the file name it was loaded from and its document. *)
Record device_doc : Type := {
  dev_fname : string;
  dev_name : string;
  dev_legacy_type : option string;
  dev_primary_entity : entity_doc;
  dev_secondary_entities : list entity_doc;
}.

(** A dps map: the raw values of a device, keyed by the dps id as a string. *)
Abbreviation dps_dict := (gmap string val).

(** Modelled from the spec: the device object is not part of this module.
    [getProperty(id) -> rawValue | absent]; the methods below test the
    result against [None], which is what an absent property reads as. *)
Definition get_property (device : dps_dict) (id : string) : val :=
  default VNone (device !! id).

(** ** [_typematch] *)

Definition _typematch (type : Py.type) (value : val) : outcome bool :=
  if bool_decide (type = Tint) && isinstance value Tbool then Ret false
  else if isinstance value type then Ret true
  else if isinstance value Tstr && negb (bool_decide (type = Tbool)) then
    except_ValueError (_ <- Py.call type value; Ret true) (Ret false)
  else Ret false.

(** ** [TuyaEntityConfig] *)

Module TuyaEntityConfig.

(** [dps]: the dps of the entity, in the order of the document. *)
Definition dps (self : entity_doc) : list dps_doc := e_dps self.

(** [find_dps]: the first dps whose [name] is the one asked for. *)
Definition find_dps (self : entity_doc) (name : string) : option dps_doc :=
  List.find (fun d => String.eqb (d_name d) name) (dps self).

End TuyaEntityConfig.

(** ** [TuyaDpsConfig]

    A [TuyaDpsConfig] object is its document together with the entity it
    belongs to ([self._entity]), which the methods that look up a sibling
    dps take as [entity]. *)

Module TuyaDpsConfig.

Definition id (self : dps_doc) : string := pretty (d_id self).

Definition type (self : dps_doc) : Py.type :=
  match d_type self with
  | boolean => Tbool
  | integer => Tint
  | string_ => Tstr
  | float => Tfloat
  | bitfield => Tint
  end.

Definition name (self : dps_doc) : string := d_name self.

Definition readonly (self : dps_doc) : bool := d_readonly self.

Definition stringify (self : dps_doc) : bool := d_stringify self.

(** The loop of [_find_map_for_dps]; [dflt] is the variable [default]. *)
Fixpoint _find_map_for_dps_loop (ms : list mapping_doc) (value : val)
    (dflt : option mapping_doc) : option mapping_doc :=
  match ms with
  | [] => dflt
  | m :: ms' =>
      match m_dps_val m with
      | None => _find_map_for_dps_loop ms' value (Some m)
      | Some dv =>
          if String.eqb (str dv) (str value) then Some m
          else _find_map_for_dps_loop ms' value dflt
      end
  end.

Definition _find_map_for_dps (self : dps_doc) (value : val) : option mapping_doc :=
  _find_map_for_dps_loop (d_mapping self) value None.

Definition _active_condition (entity : entity_doc) (mapping : mapping_doc)
    (device : dps_dict) : option condition_doc :=
  match m_constraint mapping, m_conditions mapping with
  | Some constraint, Some conditions =>
      let c_dps := TuyaEntityConfig.find_dps entity constraint in
      let c_val :=
        match c_dps with
        | None => VNone
        | Some c => get_property device (id c)
        end in
      if bool_decide (c_val = VNone) then None
      else List.find (fun cond => Py.eq c_val (default VNone (c_dps_val cond))) conditions
  | _, _ => None
  end.

(** [r is not None and "min" in r and "max" in r] *)
Definition usable_range (r : option range_doc) : bool :=
  match r with
  | Some r => bool_decide (is_Some (r_min r)) && bool_decide (is_Some (r_max r))
  | None => false
  end.

Definition range (entity : entity_doc) (self : dps_doc) (device : dps_dict)
    : option range_doc :=
  let own := if usable_range (d_range self) then d_range self else None in
  match _find_map_for_dps self (get_property device (id self)) with
  | Some mapping =>
      let cond := _active_condition entity mapping device in
      let r := cond ≫= c_range in
      if usable_range r then r
      else
        let r := m_range mapping in
        if usable_range r then r else own
  | None => own
  end.

(** The loop over a condition's nested [mapping]: each entry is compared
    with the result as the entries before it have left it. *)
Definition submap_step (result : val) (m : submap_doc) : val :=
  if String.eqb (str (default VNone (s_dps_val m))) (str result)
  then default result (s_value m)
  else result.

(** The first statement of [_map_from_dps]: a stringified dps is converted
    to the type of the dps where that is possible. *)
Definition destringified (self : dps_doc) (value : val) : outcome val :=
  if stringify self && negb (bool_decide (value = VNone))
  then except_ValueError (Py.call (type self) value) (Ret value)
  else Ret value.

(** [_map_from_dps], with the call [r_dps.get_value(device)] of the
    redirect as [get_value]. The variable [replaced] only feeds the debug
    log and is left out. *)
Definition _map_from_dps (get_value : dps_doc -> outcome val)
    (entity : entity_doc) (self : dps_doc) (value : val) (device : dps_dict)
    : outcome val :=
  value <- destringified self value;
  let result := value in
  match _find_map_for_dps self value with
  | None => Ret result
  | Some mapping =>
      let scale := default (VInt 1) (m_scale mapping) in
      let scale := if is_number scale then scale else VInt 1 in
      let redirect := m_value_redirect mapping in
      let result := default result (m_value mapping) in
      let finish (result scale : val) (redirect : option string) : outcome val :=
        match redirect with
        | Some redirect =>
            match TuyaEntityConfig.find_dps entity redirect with
            | None => Raise AttributeError
            | Some r_dps => get_value r_dps
            end
        | None =>
            if negb (Py.eq scale (VInt 1)) && is_number result
            then Py.truediv result scale
            else Ret result
        end in
      match _active_condition entity mapping device with
      | Some cond =>
          if truthy (default (VBool false) (c_invalid cond)) then Ret VNone
          else
            let result := default result (c_value cond) in
            let scale := default scale (c_scale cond) in
            let redirect := default redirect (c_value_redirect cond) in
            let result := fold_left submap_step (c_mapping cond) result in
            finish result scale redirect
      | None => finish result scale redirect
      end
  end.

(** [get_value]. Every call of the method takes one unit of [fuel]. *)
Fixpoint get_value (fuel : nat) (entity : entity_doc) (self : dps_doc)
    (device : dps_dict) : outcome val :=
  match fuel with
  | O => OutOfFuel
  | S fuel' =>
      _map_from_dps (fun r_dps => get_value fuel' entity r_dps device)
        entity self (get_property device (id self)) device
  end.

(** The loop of [_find_map_for_value]; [dflt] is the variable [default]. *)
Fixpoint _find_map_for_value_loop (ms : list mapping_doc) (value : val)
    (dflt : option mapping_doc) : option mapping_doc :=
  match ms with
  | [] => dflt
  | m :: ms' =>
      let dflt := if m_dps_val m is None then Some m else dflt in
      if (if m_value m is Some v then String.eqb (str v) (str value) else false)
      then Some m
      else if existsb (fun c => if c_value c is Some v then Py.eq v value else false)
                (default [] (m_conditions m))
      then Some m
      else _find_map_for_value_loop ms' value dflt
  end.

Definition _find_map_for_value (self : dps_doc) (value : val) : option mapping_doc :=
  _find_map_for_value_loop (d_mapping self) value None.

Definition invalid_for (entity : entity_doc) (self : dps_doc) (value : val)
    (device : dps_dict) : bool :=
  match _find_map_for_value self value with
  | Some mapping =>
      match _active_condition entity mapping device with
      | Some cond => truthy (default (VBool false) (c_invalid cond))
      | None => false
      end
  | None => false
  end.

(** [step * round(float(result) / step)] *)
Definition stepped (result step : val) : outcome val :=
  f <- Py.to_float result;
  q <- Py.truediv (VFloat f) step;
  n <- Py.round q;
  Py.mul step (VInt n).

(** The side effect of a condition in [get_values_to_set]: when the
    condition gives the value asked for, the constraint dps is set to the
    [dps_val] of the condition, by [dps_map.update(...)]. *)
Definition side_effect (get_values_to_set : dps_doc -> val -> outcome dps_dict)
    (entity : entity_doc) (mapping : mapping_doc) (cond : condition_doc)
    (value : val) (dps_map : dps_dict) : outcome dps_dict :=
  if Py.eq (default VNone (c_value cond)) value then
    match m_constraint mapping with
    | None => Raise KeyError
    | Some constraint =>
        match TuyaEntityConfig.find_dps entity constraint with
        | None => Raise AttributeError
        | Some c_dps =>
            match c_dps_val cond with
            | None => Raise KeyError
            | Some dv => m <- get_values_to_set c_dps dv; Ret (m ∪ dps_map)
            end
        end
    end
  else Ret dps_map.

(** The first part of [get_values_to_set], up to the range check, with the
    two recursive calls of the method as [get_values_to_set]. The result is
    [inl] of the map the redirect returned, or [inr] of the value of
    [result] and of [dps_map] with which the method goes on. *)
Definition mapped_value (get_values_to_set : dps_doc -> val -> outcome dps_dict)
    (entity : entity_doc) (self : dps_doc) (device : dps_dict) (value : val)
    : outcome (dps_dict + val * dps_dict) :=
  let result := value in
  let dps_map : dps_dict := ∅ in
  match _find_map_for_value self value with
  | None => Ret (inr (result, dps_map))
  | Some mapping =>
      let scale := default (VInt 1) (m_scale mapping) in
      let redirect := m_value_redirect mapping in
      let scale := if is_number scale then scale else VInt 1 in
      let step := default VNone (m_step mapping) in
      let step := if is_number step then step else VNone in
      let result := default result (m_dps_val mapping) in
      '(dps_map, scale, step, redirect) <-
        match _active_condition entity mapping device with
        | Some cond =>
            dps_map <- side_effect get_values_to_set entity mapping cond value dps_map;
            Ret (dps_map,
                 default scale (c_scale cond),
                 default step (c_step cond),
                 default redirect (c_value_redirect cond))
        | None => Ret (dps_map, scale, step, redirect)
        end;
      match redirect with
      | Some redirect =>
          match TuyaEntityConfig.find_dps entity redirect with
          | None => Raise AttributeError
          | Some r_dps => inl <$> get_values_to_set r_dps value
          end
      | None =>
          result <- (if negb (Py.eq scale (VInt 1)) && is_number result
                    then Py.mul result scale else Ret result);
          result <- (if negb (bool_decide (step = VNone)) && is_number result
                    then stepped result step else Ret result);
          Ret (inr (result, dps_map))
      end
  end.

(** The text of the range violation. *)
Definition range_message (self : dps_doc) (value minimum maximum : val) : string :=
  name self +:+ " (" +:+ str value +:+ ") must be between "
    +:+ str minimum +:+ " and " +:+ str maximum.

(** The range check of [get_values_to_set]. *)
Definition check_range (entity : entity_doc) (self : dps_doc) (device : dps_dict)
    (value result : val) : outcome unit :=
  match range entity self device with
  | Some r =>
      match r_min r, r_max r with
      | Some minimum, Some maximum =>
          below <- Py.lt result minimum;
          outside <- (if below then Ret true else Py.gt result maximum : outcome bool);
          if outside then Raise (ValueError (range_message self value minimum maximum))
          else Ret ()
      | _, _ => Raise KeyError
      end
  | None => Ret ()
  end.

(** The conversion of [result] to the type of the dps. *)
Definition coerce (self : dps_doc) (result : val) : outcome val :=
  result <-
    match type self with
    | Tint => VInt <$> Py.round result
    | Tbool => Ret (VBool (truthy result))
    | Tfloat => VFloat <$> Py.to_float result
    | Tstr => Ret (VStr (str result))
    end;
  Ret (if stringify self then VStr (str result) else result).

(** [get_values_to_set]. Every call of the method takes one unit of [fuel]. *)
Fixpoint get_values_to_set (fuel : nat) (entity : entity_doc) (self : dps_doc)
    (device : dps_dict) (value : val) : outcome dps_dict :=
  match fuel with
  | O => OutOfFuel
  | S fuel' =>
      r <- mapped_value (fun d v => get_values_to_set fuel' entity d device v)
            entity self device value;
      match r with
      | inl redirected => Ret redirected
      | inr (result, dps_map) =>
          _ <- check_range entity self device value result;
          result <- coerce self result;
          Ret (<[id self := result]> dps_map)
      end
  end.

End TuyaDpsConfig.

(** ** [TuyaDeviceConfig] *)

(** [os.path.splitext]: the extension starts at the last dot of the last
    path component, unless only dots precede it there. *)
Definition splitext (p : string) : string * string :=
  let l := list_ascii_of_string p in
  let last_index (c : ascii) : Z :=
    fold_left (fun best '(i, x) => if Ascii.eqb x c then Z.of_nat i else best)
      (imap (fun i x => (i, x)) l) (-1) in
  let sepIndex := last_index "/"%char in
  let dotIndex := last_index "."%char in
  let before := drop (Z.to_nat (sepIndex + 1)) (take (Z.to_nat dotIndex) l) in
  if (sepIndex <? dotIndex) && existsb (fun x => negb (Ascii.eqb x "."%char)) before
  then (string_of_list_ascii (take (Z.to_nat dotIndex) l),
        string_of_list_ascii (drop (Z.to_nat dotIndex) l))
  else (p, "").

Module TuyaDeviceConfig.

Definition name (self : device_doc) : string := dev_name self.

Definition config (self : device_doc) : string := dev_fname self.

Definition legacy_type (self : device_doc) : string :=
  default (fst (splitext (config self))) (dev_legacy_type self).

Definition primary_entity (self : device_doc) : entity_doc := dev_primary_entity self.

Definition secondary_entities (self : device_doc) : list entity_doc :=
  dev_secondary_entities self.

(** [d.id not in dps.keys() or not _typematch(d.type, dps[d.id])] *)
Definition mismatch (d : dps_doc) (dps : dps_dict) : outcome bool :=
  match dps !! TuyaDpsConfig.id d with
  | None => Ret true
  | Some v => negb <$> _typematch (TuyaDpsConfig.type d) v
  end.

(** One of the loops [for d in ....dps()] of [matches]: [false] stands for
    the [return False] inside it. *)
Fixpoint matches_dps (ds : list dps_doc) (dps : dps_dict) : outcome bool :=
  match ds with
  | [] => Ret true
  | d :: ds' =>
      bad <- mismatch d dps;
      if bad then Ret false else matches_dps ds' dps
  end.

Fixpoint matches_entities (es : list entity_doc) (dps : dps_dict) : outcome bool :=
  match es with
  | [] => Ret true
  | dev :: es' =>
      ok <- matches_dps (TuyaEntityConfig.dps dev) dps;
      if ok then matches_entities es' dps else Ret false
  end.

Definition matches (self : device_doc) (dps : dps_dict) : outcome bool :=
  ok <- matches_dps (TuyaEntityConfig.dps (primary_entity self)) dps;
  if ok then matches_entities (secondary_entities self) dps else Ret false.

(** [l.remove(x)]: [l] without the first item equal to [x]. *)
Fixpoint remove (x : string) (l : list string) : outcome (list string) :=
  match l with
  | [] => Raise (ValueError "list.remove(x): x not in list")
  | y :: l' =>
      if String.eqb y x then Ret l'
      else l'' <- remove x l'; Ret (y :: l'')
  end.

(** The loop of [_entity_match_analyse] over the dps [ds] of the entity.
    The lists [keys] and [matched] are changed in place by the method: they
    are returned here with the result. *)
Fixpoint _entity_match_analyse_loop (ds : list dps_doc) (keys matched : list string)
    (dps : dps_dict) : outcome (bool * list string * list string) :=
  match ds with
  | [] => Ret (true, keys, matched)
  | d :: ds' =>
      let i := TuyaDpsConfig.id d in
      bad <- (if negb (bool_decide (i ∈ keys)) && negb (bool_decide (i ∈ matched))
             then Ret true
             else match dps !! i with
                  | Some v => negb <$> _typematch (TuyaDpsConfig.type d) v
                  | None => Raise KeyError
                  end);
      if bad then Ret (false, keys, matched)
      else if bool_decide (i ∈ keys) then
        keys' <- remove i keys;
        _entity_match_analyse_loop ds' keys' (matched ++ [i]) dps
      else _entity_match_analyse_loop ds' keys matched dps
  end.

Definition _entity_match_analyse (entity : entity_doc) (keys matched : list string)
    (dps : dps_dict) : outcome (bool * list string * list string) :=
  _entity_match_analyse_loop (TuyaEntityConfig.dps entity) keys matched dps.

(** The loop of [match_quality] over the secondary entities; [None] stands
    for the [return 0] inside it. *)
Fixpoint match_quality_loop (es : list entity_doc) (keys matched : list string)
    (dps : dps_dict) : outcome (option (list string)) :=
  match es with
  | [] => Ret (Some keys)
  | e :: es' =>
      '(ok, keys, matched) <- _entity_match_analyse e keys matched dps;
      if ok then match_quality_loop es' keys matched dps else Ret None
  end.

Definition match_quality (self : device_doc) (dps : dps_dict) : outcome Z :=
  let keys := (map_to_list dps).*1 in
  let matched := [] in
  keys <- (if bool_decide ("updated_at" ∈ keys) then remove "updated_at" keys
          else Ret keys);
  let total := length keys in
  '(ok, keys, matched) <- _entity_match_analyse (primary_entity self) keys matched dps;
  if ok then
    r <- match_quality_loop (secondary_entities self) keys matched dps;
    match r with
    | Some keys =>
        q <- Py.truediv (VInt ((Z.of_nat total - Z.of_nat (length keys)) * 100))
              (VInt (Z.of_nat total));
        Py.round q
    | None => Ret 0
    end
  else Ret 0.

End TuyaDeviceConfig.

(** ** The catalog

    [available_configs] lists the files of the config directory and
    [TuyaDeviceConfig(cfg)] loads one of them: the functions below take the
    loaded configs, in the order of [available_configs], as [configs]. *)

Definition config_for_legacy_use (configs : list device_doc) (conf_type : string)
    : option device_doc :=
  List.find (fun parsed => String.eqb (TuyaDeviceConfig.legacy_type parsed) conf_type)
    configs.

(** ** Vocabulary of the specification *)

(** [v] is an instance of exactly the class [t], not of a subclass: a bool
    is no native int. *)
Definition native_instance (t : Py.type) (v : val) : bool :=
  match t, v with
  | Tbool, VBool _ | Tint, VInt _ | Tfloat, VFloat _ | Tstr, VStr _ => true
  | _, _ => false
  end.

(** The string [s] parses as the type [t]: [t(s)] returns. *)
Definition parses (t : Py.type) (s : string) : Prop := returns (Py.call t (VStr s)).

(** The properties a schema declares: those of the primary entity, then
    those of each secondary entity, in the order of the documents. *)
Definition declared (self : device_doc) : list dps_doc :=
  TuyaEntityConfig.dps (TuyaDeviceConfig.primary_entity self)
    ++ concat (TuyaEntityConfig.dps <$> TuyaDeviceConfig.secondary_entities self).

(** The id of [d] is a key of [raw], with a value compatible with its type. *)
Definition compatible (raw : dps_dict) (d : dps_doc) : Prop :=
  exists v, raw !! TuyaDpsConfig.id d = Some v
            /\ _typematch (TuyaDpsConfig.type d) v = Ret true.

(** [round(matched * 100 / total)] *)
Definition percentage (matched total : nat) : outcome Z :=
  q <- Py.truediv (VInt (Z.of_nat matched * 100)) (VInt (Z.of_nat total));
  Py.round q.

(** The type-compatibility test in closed form. *)
Definition typematch_b (t : Py.type) (v : val) : bool :=
  native_instance t v
  || match v, t with
     | VStr s, Tint => bool_decide (is_Some (Py.parse_int s))
     | VStr s, Tfloat => bool_decide (is_Some (Py.parse_float s))
     | _, _ => false
     end.

(** [compatible], decided. *)
Definition compatible_b (raw : dps_dict) (d : dps_doc) : bool :=
  match raw !! TuyaDpsConfig.id d with
  | Some v => typematch_b (TuyaDpsConfig.type d) v
  | None => false
  end.

(** What the text of an integer starts with: a digit or the minus sign. *)
Definition digit_or_minus (c : ascii) : Prop :=
  c = "-"%char \/ exists n, c = pretty_N_char n.

(** ** Example documents *)

(** A mapping entry with nothing but defaults. *)
Definition plain_mapping : mapping_doc :=
  {| m_dps_val := None; m_value := None; m_scale := None; m_step := None;
     m_value_redirect := None; m_constraint := None; m_conditions := None;
     m_range := None |}.

(** A condition with nothing but its [dps_val]. *)
Definition plain_condition (dps_val : val) : condition_doc :=
  {| c_dps_val := Some dps_val; c_value := None; c_invalid := None;
     c_scale := None; c_step := None; c_value_redirect := None;
     c_range := None; c_mapping := [] |}.

(** A dps with no mapping and no range. *)
Definition plain_dps (id : Z) (type : type_name) (name : string) : dps_doc :=
  {| d_id := id; d_type := type; d_name := name; d_readonly := false;
     d_stringify := false; d_hidden := false; d_mapping := []; d_range := None |}.

Definition entity_of (dps : list dps_doc) : entity_doc :=
  {| e_entity := "switch"; e_name := None; e_dps := dps |}.

Definition device_of (fname : string) (legacy_type : option string)
    (primary : entity_doc) (secondary : list entity_doc) : device_doc :=
  {| dev_fname := fname; dev_name := "Example"; dev_legacy_type := legacy_type;
     dev_primary_entity := primary; dev_secondary_entities := secondary |}.

(** The schema of the specification's example: it declares the properties
    1 (a boolean) and 2 (an integer). *)
Definition schema_1_2 : device_doc :=
  device_of "example.yaml" None
    (entity_of [plain_dps 1 boolean "switch"; plain_dps 2 integer "timer"]) [].

(** A schema that declares no property at all. *)
Definition schema_empty : device_doc :=
  device_of "empty.yaml" None (entity_of []) [].

(** A schema in which two entities share the property 1. *)
Definition schema_shared : device_doc :=
  device_of "shared.yaml" None
    (entity_of [plain_dps 1 boolean "switch"; plain_dps 2 integer "timer"])
    [entity_of [plain_dps 1 boolean "lock"]].

(** The snapshots of the specification's example. *)
Definition snapshot_1_2_updated : dps_dict :=
  {[ "1" := VBool true; "2" := VInt 5; "updated_at" := VInt 123 ]}.

Definition snapshot_1_3 : dps_dict := {[ "1" := VBool true; "3" := VInt 9 ]}.

Definition snapshot_updated_only : dps_dict := {[ "updated_at" := VInt 123 ]}.

(** A config that declares no [legacy_type], and one that declares one. *)
Definition kogan_heater : device_doc :=
  device_of "kogan_heater.yaml" None (entity_of [plain_dps 1 boolean "power"]) [].

Definition goldair_fan : device_doc :=
  device_of "goldair_fan.yaml" (Some "fan") (entity_of [plain_dps 1 boolean "power"]) [].

(** ** The rule lookup of the write path, in the words of the specification *)

(** The rule lacks [dps_val]: it is a default. *)
Definition lacks_dps_val (m : mapping_doc) : bool := bool_decide (m_dps_val m = None).

(** Scan the mapping; return the first rule that [hit] accepts, else the
    first rule lacking [dps_val]. *)
Definition first_hit_or_default (hit : mapping_doc -> bool) (mapping : list mapping_doc)
    : option mapping_doc :=
  match List.find hit mapping with
  | Some m => Some m
  | None => List.find lacks_dps_val mapping
  end.

(** The value override [o] equals [value] as strings. *)
Definition stringwise_equal (value : val) (o : option val) : bool :=
  if o is Some v then String.eqb (str v) (str value) else false.

(** The value override [o] equals [value] by [==]. *)
Definition python_equal (value : val) (o : option val) : bool :=
  if o is Some v then Py.eq v value else false.

(** [findRuleForSemantic] as the specification words it: the rule's own
    value override, or any of its conditions' value overrides, equals the
    value as strings. *)
Definition gives_stringwise (value : val) (m : mapping_doc) : bool :=
  stringwise_equal value (m_value m)
  || existsb (fun c => stringwise_equal value (c_value c)) (default [] (m_conditions m)).

Definition findRuleForSemantic (mapping : list mapping_doc) (newValue : val)
    : option mapping_doc :=
  first_hit_or_default (gives_stringwise newValue) mapping.

(** The same scan with the conditions' value overrides compared by [==]. *)
Definition gives (value : val) (m : mapping_doc) : bool :=
  stringwise_equal value (m_value m)
  || existsb (fun c => python_equal value (c_value c)) (default [] (m_conditions m)).

Definition findRuleForSemantic_amended (mapping : list mapping_doc) (newValue : val)
    : option mapping_doc :=
  first_hit_or_default (gives newValue) mapping.

(** A rule whose only condition gives [value]. *)
Definition rule_with_condition_value (value : val) : mapping_doc :=
  {| m_dps_val := Some (VStr "a"); m_value := None; m_scale := None;
     m_step := None; m_value_redirect := None; m_constraint := Some "mode";
     m_conditions := Some [
       {| c_dps_val := Some (VBool true); c_value := Some value;
          c_invalid := None; c_scale := None; c_step := None;
          c_value_redirect := None; c_range := None; c_mapping := [] |} ];
     m_range := None |}.

Definition dps_with_mapping (id : Z) (type : type_name) (name : string)
    (mapping : list mapping_doc) : dps_doc :=
  {| d_id := id; d_type := type; d_name := name; d_readonly := false;
     d_stringify := false; d_hidden := false; d_mapping := mapping;
     d_range := None |}.

(** ** The active condition, in the words of the specification *)

(** The constraint property of the rule [mapping] currently holds the
    activation value ([dps_val]) of the condition [cond]. *)
Definition holds_activation_value (entity : entity_doc) (mapping : mapping_doc)
    (device : dps_dict) (cond : condition_doc) : Prop :=
  exists constraint c_dps,
    m_constraint mapping = Some constraint
    /\ TuyaEntityConfig.find_dps entity constraint = Some c_dps
    /\ get_property device (TuyaDpsConfig.id c_dps) <> VNone
    /\ Py.eq (get_property device (TuyaDpsConfig.id c_dps))
             (default VNone (c_dps_val cond)) = true.

(** [cond] is the active condition of the rule: the first condition, in
    declared order, whose constraint property currently holds its
    activation value. *)
Definition active_condition (entity : entity_doc) (mapping : mapping_doc)
    (device : dps_dict) (cond : condition_doc) : Prop :=
  exists conditions pre post,
    m_conditions mapping = Some conditions
    /\ conditions = pre ++ cond :: post
    /\ holds_activation_value entity mapping device cond
    /\ Forall (fun c => ~ holds_activation_value entity mapping device c) pre.

(** The condition is flagged invalid. *)
Definition flagged_invalid (cond : condition_doc) : bool :=
  truthy (default (VBool false) (c_invalid cond)).

(** ** Redirects *)

(** The redirect that is in force for the rule: the one of the active
    condition when that condition has the key, else the rule's own. *)
Definition effective_redirect (entity : entity_doc) (mapping : mapping_doc)
    (device : dps_dict) : option string :=
  match TuyaDpsConfig._active_condition entity mapping device with
  | Some cond => default (m_value_redirect mapping) (c_value_redirect cond)
  | None => m_value_redirect mapping
  end.

(** The rule has an active condition, and it is flagged invalid. *)
Definition active_invalid (entity : entity_doc) (mapping : mapping_doc)
    (device : dps_dict) : bool :=
  match TuyaDpsConfig._active_condition entity mapping device with
  | Some cond => flagged_invalid cond
  | None => false
  end.

(** The side effect that [get_values_to_set] computes for the rule before
    it looks at the redirect. *)
Definition pending_side_effect (get_values_to_set : dps_doc -> val -> outcome dps_dict)
    (entity : entity_doc) (mapping : mapping_doc) (device : dps_dict) (value : val)
    : outcome dps_dict :=
  match TuyaDpsConfig._active_condition entity mapping device with
  | Some cond => TuyaDpsConfig.side_effect get_values_to_set entity mapping cond value ∅
  | None => Ret ∅
  end.

(** The call [self.get_value(device)] finishes with the outcome [r]. *)
Definition get_value_finishes (entity : entity_doc) (self : dps_doc)
    (device : dps_dict) (r : outcome val) : Prop :=
  r <> OutOfFuel /\ exists fuel, TuyaDpsConfig.get_value fuel entity self device = r.

(** The call [self.get_values_to_set(device, value)] finishes with [r]. *)
Definition get_values_to_set_finishes (entity : entity_doc) (self : dps_doc)
    (device : dps_dict) (value : val) (r : outcome dps_dict) : Prop :=
  r <> OutOfFuel
  /\ exists fuel, TuyaDpsConfig.get_values_to_set fuel entity self device value = r.

(** The side effect pending for the rule, if there is one, returns. *)
Definition side_effect_returns (entity : entity_doc) (mapping : mapping_doc)
    (device : dps_dict) (value : val) : Prop :=
  exists fuel,
    returns (pending_side_effect
               (fun d v => TuyaDpsConfig.get_values_to_set fuel entity d device v)
               entity mapping device value).

(** [x] is [y], or has run out of fuel. *)
Definition below {A : Type} (x y : outcome A) : Prop := x = OutOfFuel \/ x = y.

(** An entity for the examples: the mode (1), the target (2), and the
    temperature (3), whose only rule has a value override, a scale, a
    redirect to the target and, while the mode is on, a condition that is
    flagged invalid and carries overrides of its own. *)
Definition mode_dps : dps_doc := plain_dps 1 boolean "mode".

Definition target_dps : dps_doc := plain_dps 2 integer "target".

Definition guarded_rule : mapping_doc :=
  {| m_dps_val := None; m_value := Some (VInt 7); m_scale := Some (VInt 10);
     m_step := None; m_value_redirect := Some "target";
     m_constraint := Some "mode";
     m_conditions := Some [
       {| c_dps_val := Some (VBool true); c_value := Some (VInt 9);
          c_invalid := Some (VBool true); c_scale := Some (VInt 2);
          c_step := None; c_value_redirect := Some (Some "target");
          c_range := None;
          c_mapping := [ {| s_dps_val := Some (VInt 9); s_value := Some (VInt 1) |} ] |} ];
     m_range := None |}.

Definition temperature_dps : dps_doc :=
  dps_with_mapping 3 integer "temperature" [guarded_rule].

Definition climate : entity_doc := entity_of [mode_dps; target_dps; temperature_dps].

Definition device_mode_on : dps_dict :=
  {[ "1" := VBool true; "2" := VInt 5; "3" := VInt 20 ]}.

Definition device_mode_off : dps_dict :=
  {[ "1" := VBool false; "2" := VInt 5; "3" := VInt 20 ]}.

(** A dps with a scale of 10 and the range 0..100 on its raw value. *)
Definition scaled_dps : dps_doc :=
  {| d_id := 2; d_type := integer; d_name := "temperature"; d_readonly := false;
     d_stringify := false; d_hidden := false;
     d_mapping := [ {| m_dps_val := None; m_value := None;
                       m_scale := Some (VInt 10); m_step := None;
                       m_value_redirect := None; m_constraint := None;
                       m_conditions := None; m_range := None |} ];
     d_range := Some {| r_min := Some (VInt 0); r_max := Some (VInt 100) |} |}.

Definition heater : entity_doc := entity_of [plain_dps 1 boolean "power"; scaled_dps].

Definition device_heater : dps_dict := {[ "1" := VBool true; "2" := VInt 50 ]}.

(** ** The reference graph of an entity *)

(** The names a condition refers to: its redirect. *)
Definition condition_refs (c : condition_doc) : list string :=
  match c_value_redirect c with
  | Some (Some redirect) => [redirect]
  | _ => []
  end.

(** The names a rule refers to: its redirect, its constraint and the
    redirects of its conditions. *)
Definition mapping_refs (m : mapping_doc) : list string :=
  option_list (m_value_redirect m) ++ option_list (m_constraint m)
    ++ concat (condition_refs <$> default [] (m_conditions m)).

Definition dps_refs (d : dps_doc) : list string :=
  concat (mapping_refs <$> d_mapping d).

(** An edge of the reference graph: [d] names [d'], as [find_dps] resolves
    the name in the entity. *)
Definition refers (entity : entity_doc) (d d' : dps_doc) : Prop :=
  exists name, name ∈ dps_refs d /\ TuyaEntityConfig.find_dps entity name = Some d'.

(** No property reaches itself along one or more edges. *)
Definition acyclic (entity : entity_doc) : Prop :=
  forall d, ~ tc (refers entity) d d.

(** The entities of a schema, and the schema whose every entity has an
    acyclic reference graph ([find_dps] resolves a name within the entity). *)
Definition entities (self : device_doc) : list entity_doc :=
  TuyaDeviceConfig.primary_entity self :: TuyaDeviceConfig.secondary_entities self.

Definition schema_acyclic (self : device_doc) : Prop :=
  Forall acyclic (entities self).

(** The call does not run out of fuel. *)
Definition finished {A : Type} (x : outcome A) : Prop := x <> OutOfFuel.

(** The list [x_n; ...; x_1; x_0] follows the relation: [R x_i x_(i+1)]. *)
Fixpoint chain {A : Type} (R : A -> A -> Prop) (l : list A) : Prop :=
  match l with
  | x :: l' =>
      match l' with
      | y :: _ => R y x /\ chain R l'
      | [] => True
      end
  | [] => True
  end.

(** A property that redirects to itself. *)
Definition loop_dps : dps_doc :=
  dps_with_mapping 1 integer "loop"
    [ {| m_dps_val := None; m_value := None; m_scale := None; m_step := None;
         m_value_redirect := Some "loop"; m_constraint := None;
         m_conditions := None; m_range := None |} ].

Definition loop_entity : entity_doc := entity_of [loop_dps].

#[global] Instance range_doc_eq_dec : EqDecision range_doc.
Proof. solve_decision. Defined.

#[global] Instance submap_doc_eq_dec : EqDecision submap_doc.
Proof. solve_decision. Defined.

#[global] Instance condition_doc_eq_dec : EqDecision condition_doc.
Proof. solve_decision. Defined.

#[global] Instance mapping_doc_eq_dec : EqDecision mapping_doc.
Proof. solve_decision. Defined.

#[global] Instance type_name_eq_dec : EqDecision type_name.
Proof. solve_decision. Defined.

#[global] Instance dps_doc_eq_dec : EqDecision dps_doc.
Proof. solve_decision. Defined.

(** A rank for the properties of [climate]: the temperature refers to the
    mode and to the target, which refer to nothing. *)
Definition climate_rank (d : dps_doc) : nat :=
  if decide (d = temperature_dps) then 1%nat
  else if decide (d = mode_dps \/ d = target_dps) then 0%nat
  else 2%nat.

Definition climate_schema : device_doc := device_of "climate.yaml" None climate [].

(** The examples of the specification's section on testable properties:
    a switch whose raw value 1 reads "on", and a condition whose value
    asks for a companion write to its constraint property. *)
Definition onoff_dps : dps_doc :=
  dps_with_mapping 1 integer "switch"
    [ {| m_dps_val := Some (VInt 1); m_value := Some (VStr "on"); m_scale := None;
         m_step := None; m_value_redirect := None; m_constraint := None;
         m_conditions := None; m_range := None |} ].

Definition preset_dps : dps_doc :=
  dps_with_mapping 4 string_ "preset"
    [ {| m_dps_val := Some (VStr "eco"); m_value := None; m_scale := None;
         m_step := None; m_value_redirect := None; m_constraint := Some "mode";
         m_conditions := Some [
           {| c_dps_val := Some (VBool true); c_value := Some (VStr "away");
              c_invalid := None; c_scale := None; c_step := None;
              c_value_redirect := None; c_range := None; c_mapping := [] |} ];
         m_range := None |} ].

Definition thermostat : entity_doc := entity_of [mode_dps; preset_dps; onoff_dps].

(** An entity in which the side effect of a condition fails: the alias
    redirects to the label, and its condition, active while the level is
    50, asks for the level to be set to 50, outside the range of the level. *)
Definition level_dps : dps_doc :=
  {| d_id := 5; d_type := integer; d_name := "level"; d_readonly := false;
     d_stringify := false; d_hidden := false; d_mapping := [];
     d_range := Some {| r_min := Some (VInt 0); r_max := Some (VInt 10) |} |}.

Definition label_dps : dps_doc := plain_dps 6 string_ "label".

Definition alias_rule : mapping_doc :=
  {| m_dps_val := None; m_value := None; m_scale := None; m_step := None;
     m_value_redirect := Some "label"; m_constraint := Some "level";
     m_conditions := Some [
       {| c_dps_val := Some (VInt 50); c_value := Some (VStr "x");
          c_invalid := None; c_scale := None; c_step := None;
          c_value_redirect := None; c_range := None; c_mapping := [] |} ];
     m_range := None |}.

Definition alias_dps : dps_doc := dps_with_mapping 7 string_ "alias" [alias_rule].

Definition labelled : entity_doc := entity_of [level_dps; label_dps; alias_dps].

Definition device_level_50 : dps_dict :=
  {[ "5" := VInt 50; "6" := VStr "a"; "7" := VStr "b" ]}.

(** A second default: a rule lacking [dps_val], with a scale. *)
Definition scaled_default : mapping_doc :=
  {| m_dps_val := None; m_value := None; m_scale := Some (VInt 2); m_step := None;
     m_value_redirect := None; m_constraint := None; m_conditions := None;
     m_range := None |}.

(** ** Further functions of the module *)

(** [possible_matches], run to its end: the configs it yields, in order. *)
Fixpoint possible_matches (configs : list device_doc) (dps : dps_dict)
    : outcome (list device_doc) :=
  match configs with
  | [] => Ret []
  | parsed :: rest =>
      ok <- TuyaDeviceConfig.matches parsed dps;
      found <- possible_matches rest dps;
      Ret (if ok then parsed :: found else found)
  end.

(** The rule lookup of the read path in closed form: the first rule whose
    [dps_val] equals the value as strings, else the last rule lacking
    [dps_val]. *)
Definition first_exact_or_last_default (mapping : list mapping_doc) (value : val)
    : option mapping_doc :=
  match List.find (fun m => stringwise_equal value (m_dps_val m)) mapping with
  | Some m => Some m
  | None => last (List.filter lacks_dps_val mapping)
  end.

(** The call does not raise the exception [e]. *)
Definition avoids {A : Type} (e : exn) (x : outcome A) : Prop := x <> Raise e.

(** The range that applies, by precedence: the active condition's, else
    the rule's, else the property's own; a range that lacks a bound does
    not count. *)
Definition range_by_precedence (condition rule own : option range_doc)
    : option range_doc :=
  if TuyaDpsConfig.usable_range condition then condition
  else if TuyaDpsConfig.usable_range rule then rule
  else if TuyaDpsConfig.usable_range own then own
  else None.

(** A property whose rule redirects to a name that no dps of the entity has. *)
Definition dangling_dps : dps_doc :=
  dps_with_mapping 8 integer "dangling"
    [ {| m_dps_val := None; m_value := None; m_scale := None; m_step := None;
         m_value_redirect := Some "nowhere"; m_constraint := None;
         m_conditions := None; m_range := None |} ].

(** No redirect is in force for the value: the rule that gives it, if
    there is one, redirects neither by itself nor by its active condition. *)
Definition no_redirect_in_force (entity : entity_doc) (self : dps_doc)
    (device : dps_dict) (value : val) : Prop :=
  match TuyaDpsConfig._find_map_for_value self value with
  | Some mapping => effective_redirect entity mapping device = None
  | None => True
  end.

(** What is stored for a dps is of the type of the dps, or a string when
    the dps is stringified. *)
Definition well_typed (self : dps_doc) (v : val) : Prop :=
  if TuyaDpsConfig.stringify self then exists s, v = VStr s
  else native_instance (TuyaDpsConfig.type self) v = true.

(** The step that is in force for the rule: the one of the active
    condition when that condition has the key, else the rule's own when it
    is a number. *)
Definition effective_step (entity : entity_doc) (mapping : mapping_doc)
    (device : dps_dict) : val :=
  let step := default VNone (m_step mapping) in
  let step := if is_number step then step else VNone in
  match TuyaDpsConfig._active_condition entity mapping device with
  | Some cond => default step (c_step cond)
  | None => step
  end.

(** A dps whose default rule has a step of 5. *)
Definition stepped_dps : dps_doc :=
  dps_with_mapping 9 integer "timer"
    [ {| m_dps_val := None; m_value := None; m_scale := None;
         m_step := Some (VInt 5); m_value_redirect := None; m_constraint := None;
         m_conditions := None; m_range := None |} ].


(** A stringified integer dps with no mapping. *)
Definition countdown_dps : dps_doc :=
  {| d_id := 10; d_type := integer; d_name := "countdown"; d_readonly := false;
     d_stringify := true; d_hidden := false; d_mapping := []; d_range := None |}.

(** [TuyaDpsConfig.step]: the step of the rule for the current raw value,
    or of its active condition, divided by the scale found the same way. *)
Definition step (entity : entity_doc) (self : dps_doc) (device : dps_dict)
    : outcome val :=
  let step := VInt 1 in
  let scale := VInt 1 in
  let '(step, scale) :=
    match TuyaDpsConfig._find_map_for_dps self
            (get_property device (TuyaDpsConfig.id self)) with
    | Some mapping =>
        let step := default (VInt 1) (m_step mapping) in
        let scale := default (VInt 1) (m_scale mapping) in
        match TuyaDpsConfig._active_condition entity mapping device with
        | Some cond => (default step (c_step cond), default scale (c_scale cond))
        | None => (step, scale)
        end
    | None => (step, scale)
    end in
  Py.truediv step scale.

(** A rule that only scales: a default with an integer scale, and neither
    step, redirect nor constraint. *)
Definition scales_by (m : mapping_doc) (s : Z) : Prop :=
  m_dps_val m = None /\ m_scale m = Some (VInt s)
  /\ m_step m = None /\ m_value_redirect m = None /\ m_constraint m = None.

(** A dps in tenths with a range, in raw units, of 50 to 350. *)
Definition tenths_dps : dps_doc :=
  {| d_id := 11; d_type := integer; d_name := "setpoint"; d_readonly := false;
     d_stringify := false; d_hidden := false;
     d_mapping := [ {| m_dps_val := None; m_value := None;
                       m_scale := Some (VInt 10); m_step := None;
                       m_value_redirect := None; m_constraint := None;
                       m_conditions := None; m_range := None |} ];
     d_range := Some {| r_min := Some (VInt 50); r_max := Some (VInt 350) |} |}.

(** * Theorems *)

(** ** Outcomes *)

Lemma bind_Ret {A B : Type} (x : outcome A) (k : A -> outcome B) (b : B) :
  bind x k = Ret b -> exists a, x = Ret a /\ k a = Ret b.
Proof. destruct x; simpl; intros H; try discriminate. eauto. Qed.

Lemma fmap_Ret {A B : Type} (f : A -> B) (x : outcome A) (b : B) :
  f <$> x = Ret b -> exists a, x = Ret a /\ f a = b.
Proof.
  destruct x; cbn; intros H; try discriminate.
  injection H as <-. eauto.
Qed.

(** ** [_typematch] *)

Lemma _typematch_closed (t : Py.type) (v : val) :
  _typematch t v = Ret (typematch_b t v).
Proof.
  destruct t, v as [| b | z | f | s]; try reflexivity;
    unfold _typematch, typematch_b; cbn.
  - destruct (Py.parse_int s); reflexivity.
  - destruct (Py.parse_float s); reflexivity.
Qed.

Lemma parses_Tint (s : string) : parses Tint s <-> is_Some (Py.parse_int s).
Proof.
  unfold parses, returns; cbn. destruct (Py.parse_int s); cbn; split.
  - eauto.
  - eauto.
  - intros [a H]; discriminate.
  - intros [a H]; discriminate.
Qed.

Lemma parses_Tfloat (s : string) : parses Tfloat s <-> is_Some (Py.parse_float s).
Proof.
  unfold parses, returns; cbn. destruct (Py.parse_float s); cbn; split.
  - eauto.
  - eauto.
  - intros [a H]; discriminate.
  - intros [a H]; discriminate.
Qed.

Lemma typematch_b_spec (t : Py.type) (v : val) :
  typematch_b t v = true <->
  native_instance t v = true \/ exists s, v = VStr s /\ t <> Tbool /\ parses t s.
Proof.
  unfold typematch_b. rewrite orb_true_iff. split.
  - intros [H | H]; [by left |]. right.
    destruct v as [| | | | s]; try discriminate.
    destruct t; try discriminate; exists s; (split; [done | split; [done |]]).
    + apply parses_Tint. by apply bool_decide_eq_true in H.
    + apply parses_Tfloat. by apply bool_decide_eq_true in H.
  - intros [H | (s & -> & Ht & Hp)]; [by left |].
    destruct t; try done.
    + right. apply bool_decide_eq_true. by apply parses_Tint.
    + by left.
    + right. apply bool_decide_eq_true. by apply parses_Tfloat.
Qed.

(** C7: the type-compatibility test always answers, and it accepts a value
    exactly when the value is a native instance of the declared type, or is
    a string that parses as the declared type, the type not being bool. A
    bool never satisfies an int declaration; the string "42" satisfies int
    and the string "abc" does not. *)
Theorem typematch_accepts :
  (forall t v, exists b, _typematch t v = Ret b /\
     (b = true <->
      native_instance t v = true \/
      exists s, v = VStr s /\ t <> Tbool /\ parses t s))
  /\ (forall b, _typematch Tint (VBool b) = Ret false)
  /\ _typematch Tint (VStr "42") = Ret true
  /\ _typematch Tint (VStr "abc") = Ret false.
Proof.
  split; [| split; [| split]].
  - intros t v. exists (typematch_b t v). split.
    + apply _typematch_closed.
    + apply typematch_b_spec.
  - intros b. reflexivity.
  - reflexivity.
  - reflexivity.
Qed.

(** ** [matches] *)

Lemma compatible_b_spec (raw : dps_dict) (d : dps_doc) :
  compatible_b raw d = true <-> compatible raw d.
Proof.
  unfold compatible_b, compatible. split.
  - destruct (raw !! TuyaDpsConfig.id d) as [v |] eqn:E; [| discriminate].
    intros H. exists v. split; [done |]. rewrite _typematch_closed. by f_equal.
  - intros (v & -> & H). rewrite _typematch_closed in H. by injection H.
Qed.

Lemma compatible_b_false (raw : dps_dict) (d : dps_doc) :
  compatible_b raw d = false <-> ~ compatible raw d.
Proof.
  rewrite <- compatible_b_spec. destruct (compatible_b raw d); split; try done.
Qed.

Lemma forallb_compatible (raw : dps_dict) (ds : list dps_doc) :
  forallb (compatible_b raw) ds = true <-> Forall (compatible raw) ds.
Proof.
  rewrite forallb_forall, Forall_forall. split; intros H d Hd.
  - apply compatible_b_spec, H. by apply list_elem_of_In.
  - apply compatible_b_spec, H. by apply list_elem_of_In.
Qed.

Lemma forallb_incompatible (raw : dps_dict) (ds : list dps_doc) :
  forallb (compatible_b raw) ds = false <->
  Exists (fun d => ~ compatible raw d) ds.
Proof.
  induction ds as [| d ds IH]; simpl.
  - split; [done | intros H; inversion H].
  - rewrite Exists_cons, andb_false_iff, IH, compatible_b_false. tauto.
Qed.

Lemma mismatch_closed (d : dps_doc) (raw : dps_dict) :
  TuyaDeviceConfig.mismatch d raw = Ret (negb (compatible_b raw d)).
Proof.
  unfold TuyaDeviceConfig.mismatch, compatible_b.
  destruct (raw !! TuyaDpsConfig.id d); [| done].
  by rewrite _typematch_closed.
Qed.

Lemma matches_dps_closed (ds : list dps_doc) (raw : dps_dict) :
  TuyaDeviceConfig.matches_dps ds raw = Ret (forallb (compatible_b raw) ds).
Proof.
  induction ds as [| d ds IH]; simpl; [done |].
  rewrite mismatch_closed; simpl.
  destruct (compatible_b raw d); simpl; [apply IH | done].
Qed.

Lemma matches_entities_closed (es : list entity_doc) (raw : dps_dict) :
  TuyaDeviceConfig.matches_entities es raw
  = Ret (forallb (compatible_b raw) (concat (TuyaEntityConfig.dps <$> es))).
Proof.
  induction es as [| e es IH]; simpl; [done |].
  rewrite matches_dps_closed; simpl. rewrite forallb_app.
  destruct (forallb (compatible_b raw) (TuyaEntityConfig.dps e)); simpl; [apply IH | done].
Qed.

Lemma matches_closed (self : device_doc) (raw : dps_dict) :
  TuyaDeviceConfig.matches self raw = Ret (forallb (compatible_b raw) (declared self)).
Proof.
  unfold TuyaDeviceConfig.matches, declared.
  rewrite matches_dps_closed; simpl. rewrite forallb_app.
  destruct (forallb _ (TuyaEntityConfig.dps _)); simpl;
    [apply matches_entities_closed | done].
Qed.

(** C8: [matches] answers true exactly when every declared property, of
    the primary entity and then of the secondary entities, has its id among
    the keys of the snapshot with a value compatible with its type, and
    false exactly when some declared property has not; the first property
    that fails decides the answer, whatever is declared after it. *)
Theorem matches_iff_all_compatible (self : device_doc) (raw : dps_dict) :
  (TuyaDeviceConfig.matches self raw = Ret true
     <-> Forall (compatible raw) (declared self))
  /\ (TuyaDeviceConfig.matches self raw = Ret false
     <-> Exists (fun d => ~ compatible raw d) (declared self))
  /\ (forall pre d post,
        Forall (compatible raw) pre -> ~ compatible raw d ->
        TuyaDeviceConfig.matches_dps (pre ++ d :: post) raw
        = TuyaDeviceConfig.matches_dps (pre ++ [d]) raw
        /\ TuyaDeviceConfig.matches_dps (pre ++ [d]) raw = Ret false).
Proof.
  rewrite matches_closed. split; [| split].
  - rewrite <- forallb_compatible. split; [by intros [= ->] | by intros ->].
  - rewrite <- forallb_incompatible. split; [by intros [= ->] | by intros ->].
  - intros pre d post Hpre Hd.
    rewrite !matches_dps_closed, !forallb_app; simpl.
    apply compatible_b_false in Hd. rewrite Hd; simpl.
    by rewrite !andb_false_r.
Qed.

(** ** [match_quality] *)

Lemma pretty_N_go_head (x : N) : forall s c s',
  (forall c0 s0, s = String c0 s0 -> digit_or_minus c0) ->
  pretty_N_go x s = String c s' -> digit_or_minus c.
Proof.
  induction (N.lt_wf_0 x) as [x _ IH]; intros s c s' Hs.
  destruct (decide (x = 0)%N) as [-> | Hx].
  - rewrite pretty_N_go_0. apply Hs.
  - rewrite pretty_N_go_step by lia. apply IH.
    + apply N.div_lt; lia.
    + intros c0 s0 [= <- <-]. right. by exists (x `mod` 10)%N.
Qed.

Lemma pretty_Z_head (z : Z) (c : ascii) (s : string) :
  pretty z = String c s -> digit_or_minus c.
Proof.
  destruct z as [| p | p]; unfold pretty, pretty_Z.
  - intros [= <- <-]. right. by exists 0%N.
  - unfold pretty, pretty_positive, pretty, pretty_N.
    destruct (decide _) as [| _]; [done |].
    apply pretty_N_go_head. intros ? ? [=].
  - intros [= <- _]. by left.
Qed.

Lemma id_not_updated_at (d : dps_doc) : TuyaDpsConfig.id d <> "updated_at".
Proof.
  unfold TuyaDpsConfig.id. intros H. apply pretty_Z_head in H.
  destruct H as [H | [n H]]; [discriminate |].
  unfold pretty_N_char in H. repeat case_match; discriminate.
Qed.

Lemma remove_elem (x : string) (l : list string) :
  x ∈ l -> exists l', TuyaDeviceConfig.remove x l = Ret l' /\ l ≡ₚ x :: l'.
Proof.
  induction l as [| y l IH]; intros Hx; [by apply elem_of_nil in Hx |].
  simpl. destruct (String.eqb_spec y x) as [-> | Hne].
  - by exists l.
  - apply elem_of_cons in Hx as [-> | Hx]; [done |].
    destruct (IH Hx) as (l' & -> & Hp). exists (y :: l'). split; [done |].
    rewrite Hp. apply Permutation_swap.
Qed.

(** The loop of [_entity_match_analyse], when [keys] and [matched] split
    the keys [K0] that are scored: it answers whether all of [ds] are
    compatible, and then [matched] has gained the ids of [ds]. *)
Lemma analyse_loop_closed (raw : dps_dict) (K0 : list string) (ds : list dps_doc) :
  (forall k, k ∈ K0 -> is_Some (raw !! k)) ->
  (forall d, compatible_b raw d = true -> TuyaDpsConfig.id d ∈ K0) ->
  forall keys matched, keys ++ matched ≡ₚ K0 ->
  exists keys' matched',
    TuyaDeviceConfig._entity_match_analyse_loop ds keys matched raw
    = Ret (forallb (compatible_b raw) ds, keys', matched')
    /\ keys' ++ matched' ≡ₚ K0
    /\ (forallb (compatible_b raw) ds = true ->
        forall x, x ∈ matched' <-> x ∈ matched \/ x ∈ TuyaDpsConfig.id <$> ds).
Proof.
  intros Hraw Hcompat.
  induction ds as [| d ds IH]; intros keys matched Hperm; simpl.
  { exists keys, matched. split; [done |]. split; [done |].
    intros _ x. rewrite elem_of_nil. tauto. }
  set (i := TuyaDpsConfig.id d).
  assert (i ∈ keys \/ i ∈ matched <-> i ∈ K0) as Hin.
  { rewrite <- Hperm, elem_of_app. tauto. }
  destruct (decide (i ∈ keys)) as [Hk | Hk];
    [rewrite (bool_decide_eq_true_2 _ Hk) | rewrite (bool_decide_eq_false_2 _ Hk)];
    simpl.
  - destruct (Hraw i) as [v Hv]; [apply Hin; by left |].
    rewrite Hv, _typematch_closed; simpl.
    assert (compatible_b raw d = typematch_b (TuyaDpsConfig.type d) v) as ->.
    { unfold compatible_b. fold i. by rewrite Hv. }
    destruct (typematch_b _ v); simpl; [| exists keys, matched; done].
    destruct (remove_elem i keys Hk) as (keys1 & -> & Hp). simpl.
    destruct (IH keys1 (matched ++ [i])) as (keys' & matched' & -> & Hp' & Hm).
    { rewrite <- Hperm, Hp, (Permutation_app_comm matched [i]). simpl.
      by rewrite <- Permutation_middle. }
    exists keys', matched'. split; [done |]. split; [done |].
    intros Hall x. rewrite (Hm Hall), elem_of_app, list_elem_of_singleton.
    rewrite ?fmap_cons, elem_of_cons. fold i. tauto.
  - destruct (decide (i ∈ matched)) as [Hm | Hm];
      [rewrite (bool_decide_eq_true_2 _ Hm) | rewrite (bool_decide_eq_false_2 _ Hm)];
      simpl.
    + destruct (Hraw i) as [v Hv]; [apply Hin; by right |].
      rewrite Hv, _typematch_closed; simpl.
      assert (compatible_b raw d = typematch_b (TuyaDpsConfig.type d) v) as ->.
      { unfold compatible_b. fold i. by rewrite Hv. }
      destruct (typematch_b _ v); simpl; [| exists keys, matched; done].
      destruct (IH keys matched Hperm) as (keys' & matched' & -> & Hp' & Hm').
      exists keys', matched'. split; [done |]. split; [done |].
      intros Hall x. rewrite (Hm' Hall), ?fmap_cons, elem_of_cons. fold i.
      split; [tauto |]. intros [? | [-> | ?]]; tauto.
    + destruct (compatible_b raw d) eqn:E.
      { apply Hcompat in E. fold i in E. tauto. }
      simpl. exists keys, matched; done.
Qed.

(** The loop of [match_quality] over the secondary entities. *)
Lemma match_quality_loop_closed (raw : dps_dict) (K0 : list string)
    (es : list entity_doc) :
  (forall k, k ∈ K0 -> is_Some (raw !! k)) ->
  (forall d, compatible_b raw d = true -> TuyaDpsConfig.id d ∈ K0) ->
  forall keys matched, keys ++ matched ≡ₚ K0 ->
  let ds := concat (TuyaEntityConfig.dps <$> es) in
  if forallb (compatible_b raw) ds then
    exists keys' matched',
      TuyaDeviceConfig.match_quality_loop es keys matched raw = Ret (Some keys')
      /\ keys' ++ matched' ≡ₚ K0
      /\ forall x, x ∈ matched' <-> x ∈ matched \/ x ∈ TuyaDpsConfig.id <$> ds
  else TuyaDeviceConfig.match_quality_loop es keys matched raw = Ret None.
Proof.
  intros Hraw Hcompat.
  induction es as [| e es IH]; intros keys matched Hperm; simpl.
  { exists keys, matched. split; [done |]. split; [done |].
    intros x. rewrite elem_of_nil. tauto. }
  unfold TuyaDeviceConfig._entity_match_analyse.
  destruct (analyse_loop_closed raw K0 (TuyaEntityConfig.dps e) Hraw Hcompat
              keys matched Hperm) as (keys1 & matched1 & -> & Hp1 & Hm1).
  simpl. rewrite forallb_app.
  destruct (forallb (compatible_b raw) (TuyaEntityConfig.dps e)); simpl.
  2: reflexivity.
  specialize (IH keys1 matched1 Hp1). cbv zeta in IH.
  change (list_fmap entity_doc (list dps_doc) TuyaEntityConfig.dps es)
    with (TuyaEntityConfig.dps <$> es).
  destruct (forallb (compatible_b raw) (concat (TuyaEntityConfig.dps <$> es)));
    [| done].
  destruct IH as (keys' & matched' & -> & Hp' & Hm').
  exists keys', matched'. split; [done |]. split; [done |].
  intros x. rewrite Hm', (Hm1 eq_refl), fmap_app, elem_of_app. tauto.
Qed.

Lemma elem_of_keys (raw : dps_dict) (k : string) :
  k ∈ (map_to_list raw).*1 <-> is_Some (raw !! k).
Proof.
  rewrite list_elem_of_fmap. split.
  - intros ([k' v] & -> & H). apply elem_of_map_to_list in H. by exists v.
  - intros [v H]. exists (k, v). split; [done |]. by apply elem_of_map_to_list.
Qed.

(** The keys that are scored: those of the snapshot other than ["updated_at"]. *)
Lemma scored_keys (raw : dps_dict) :
  let keys := (map_to_list raw).*1 in
  exists K0,
    (if bool_decide ("updated_at" ∈ keys)
     then TuyaDeviceConfig.remove "updated_at" keys else Ret keys) = Ret K0
    /\ NoDup K0
    /\ (forall k, k ∈ K0 <-> is_Some (raw !! k) /\ k <> "updated_at")
    /\ length K0 = size (delete "updated_at" raw).
Proof.
  intros keys.
  assert (NoDup keys) as Hnd by apply NoDup_fst_map_to_list.
  assert (length keys = size raw) as Hlen.
  { unfold keys. by rewrite length_fmap, length_map_to_list. }
  destruct (decide ("updated_at" ∈ keys)) as [Hin | Hin].
  - rewrite (bool_decide_eq_true_2 _ Hin).
    destruct (remove_elem _ _ Hin) as (K0 & -> & Hp). exists K0.
    rewrite Hp in Hnd. apply NoDup_cons in Hnd as [Hni Hnd].
    split; [done |]. split; [done |]. split.
    + intros k. rewrite <- elem_of_keys. fold keys. rewrite Hp, elem_of_cons.
      split; [| tauto]. intros Hk. split; [tauto |]. by intros ->.
    + rewrite map_size_delete_Some by by apply elem_of_keys.
      rewrite <- Hlen, Hp. done.
  - rewrite (bool_decide_eq_false_2 _ Hin). exists keys.
    split; [done |]. split; [done |]. split.
    + intros k. rewrite <- elem_of_keys. fold keys.
      split; [| tauto]. intros Hk. split; [done |]. by intros ->.
    + rewrite map_size_delete_None; [done |].
      apply eq_None_not_Some. by rewrite <- elem_of_keys.
Qed.

(** [match_quality] in closed form: 0 when a declared property fails, and
    otherwise the percentage of the scored keys that are declared ids. *)
Lemma match_quality_closed (self : device_doc) (raw : dps_dict) :
  TuyaDeviceConfig.match_quality self raw
  = if forallb (compatible_b raw) (declared self)
    then percentage (length (remove_dups (TuyaDpsConfig.id <$> declared self)))
                    (size (delete "updated_at" raw))
    else Ret 0.
Proof.
  unfold TuyaDeviceConfig.match_quality.
  destruct (scored_keys raw) as (K0 & -> & Hnd & HK0 & Hlen). simpl.
  assert (forall k, k ∈ K0 -> is_Some (raw !! k)) as Hraw.
  { intros k Hk. by apply HK0. }
  assert (forall d, compatible_b raw d = true -> TuyaDpsConfig.id d ∈ K0) as Hc.
  { intros d Hd. apply HK0. split; [| apply id_not_updated_at].
    unfold compatible_b in Hd. by destruct (raw !! TuyaDpsConfig.id d). }
  unfold TuyaDeviceConfig._entity_match_analyse.
  assert (forallb (compatible_b raw) (declared self)
          = forallb (compatible_b raw)
              (TuyaEntityConfig.dps (TuyaDeviceConfig.primary_entity self))
            && forallb (compatible_b raw)
                 (concat (TuyaEntityConfig.dps
                            <$> TuyaDeviceConfig.secondary_entities self))) as ->.
  { unfold declared. apply forallb_app. }
  assert (K0 ++ [] ≡ₚ K0) as Hp0 by by rewrite app_nil_r.
  destruct (analyse_loop_closed raw K0
              (TuyaEntityConfig.dps (TuyaDeviceConfig.primary_entity self))
              Hraw Hc K0 [] Hp0)
    as (keys1 & matched1 & -> & Hp1 & Hm1).
  simpl.
  destruct (forallb _ (TuyaEntityConfig.dps _)); simpl; [| done].
  pose proof (match_quality_loop_closed raw K0
                (TuyaDeviceConfig.secondary_entities self) Hraw Hc
                keys1 matched1 Hp1) as Hloop.
  cbv zeta in Hloop.
  destruct (forallb _ (concat _)); [| by rewrite Hloop].
  destruct Hloop as (keys' & matched' & -> & Hp' & Hm'). simpl.
  assert (NoDup matched') as Hndm.
  { rewrite <- Hp' in Hnd. by apply NoDup_app in Hnd as (_ & _ & ?). }
  assert (length matched'
          = length (remove_dups (TuyaDpsConfig.id <$> declared self))) as Hcount.
  { apply Permutation_length, NoDup_Permutation;
      [done | apply NoDup_remove_dups |].
    intros x. rewrite elem_of_remove_dups, Hm', (Hm1 eq_refl), elem_of_nil.
    unfold declared. rewrite fmap_app, elem_of_app. tauto. }
  assert (length K0 = (length keys' + length matched')%nat) as Htot.
  { by rewrite <- Hp', length_app. }
  unfold percentage. rewrite <- Hcount, <- Hlen. do 3 f_equal. lia.
Qed.

(** C1: when every declared property is in the snapshot with a compatible
    value, [match_quality] is [round(matched * 100 / total)], where [total]
    counts the keys of the snapshot other than ["updated_at"] and [matched]
    counts the declared ids, an id that two entities share counting once
    (when [total] is 0 the division raises, as the expression does); when
    some declared property is missing or incompatible the score is 0. The
    schema declaring 1 and 2 scores 100 on {1: true, 2: 5, updated_at: 123}
    and 0 on {1: true, 3: 9}. *)
Theorem match_quality_score :
  (forall self raw,
     (Forall (compatible raw) (declared self) ->
      TuyaDeviceConfig.match_quality self raw
      = percentage (length (remove_dups (TuyaDpsConfig.id <$> declared self)))
                   (size (delete "updated_at" raw)))
     /\ (Exists (fun d => ~ compatible raw d) (declared self) ->
         TuyaDeviceConfig.match_quality self raw = Ret 0))
  /\ TuyaDeviceConfig.match_quality schema_1_2 snapshot_1_2_updated = Ret 100
  /\ TuyaDeviceConfig.match_quality schema_1_2 snapshot_1_3 = Ret 0
  /\ TuyaDeviceConfig.match_quality schema_shared snapshot_1_2_updated = Ret 100.
Proof.
  split; [| split; [| split]].
  - intros self raw. rewrite match_quality_closed. split.
    + intros H. apply forallb_compatible in H. by rewrite H.
    + intros H. apply forallb_incompatible in H. by rewrite H.
  - vm_compute. reflexivity.
  - vm_compute. reflexivity.
  - vm_compute. reflexivity.
Qed.

(** The schema of the example, on the snapshot that has both of its
    properties. *)
Lemma match_quality_score_witness :
  Forall (compatible snapshot_1_2_updated) (declared schema_1_2)
  /\ TuyaDeviceConfig.match_quality schema_1_2 snapshot_1_2_updated
     = percentage 2 2.
Proof.
  assert (Forall (compatible snapshot_1_2_updated) (declared schema_1_2)) as H.
  { apply forallb_compatible. vm_compute. reflexivity. }
  split; [exact H |].
  exact (proj1 (proj1 match_quality_score schema_1_2 snapshot_1_2_updated) H).
Defined.

(** C2, as stated, fails: for a schema that declares no property the
    division by [total = 0] is reached and raises. *)
Lemma match_quality_empty_schema_raises :
  TuyaDeviceConfig.match_quality schema_empty ∅ = Raise ZeroDivisionError
  /\ TuyaDeviceConfig.match_quality schema_empty snapshot_updated_only
     = Raise ZeroDivisionError.
Proof. split; vm_compute; reflexivity. Qed.

(** C2, amended: for a schema that declares at least one property, a
    snapshot with no key other than ["updated_at"] scores 0; the division
    is not reached. *)
Theorem match_quality_no_keys (self : device_doc) (raw : dps_dict) :
  (forall k, is_Some (raw !! k) -> k = "updated_at") ->
  declared self <> [] ->
  TuyaDeviceConfig.match_quality self raw = Ret 0.
Proof.
  intros Hraw Hdecl. rewrite match_quality_closed.
  destruct (declared self) as [| d ds]; [done |]. simpl.
  assert (compatible_b raw d = false) as ->; [| done].
  unfold compatible_b.
  destruct (raw !! TuyaDpsConfig.id d) as [v |] eqn:E; [| done].
  destruct (id_not_updated_at d). apply Hraw. by exists v.
Qed.

(** The schema of the example, on a snapshot with ["updated_at"] alone. *)
Lemma match_quality_no_keys_witness :
  TuyaDeviceConfig.match_quality schema_1_2 snapshot_updated_only = Ret 0.
Proof.
  apply (match_quality_no_keys schema_1_2 snapshot_updated_only).
  - intros k [v H]. unfold snapshot_updated_only in H.
    apply lookup_singleton_Some in H. by destruct H.
  - discriminate.
Defined.

(** ** [config_for_legacy_use] *)

Lemma find_first {A : Type} (f : A -> bool) (l : list A) :
  match List.find f l with
  | Some x => exists pre post,
      l = pre ++ x :: post /\ f x = true /\ Forall (fun y => f y = false) pre
  | None => Forall (fun y => f y = false) l
  end.
Proof.
  induction l as [| y l IH]; simpl; [by constructor |].
  destruct (f y) eqn:E.
  - exists [], l. by repeat split.
  - destruct (List.find f l) as [x |].
    + destruct IH as (pre & post & -> & Hx & Hpre).
      exists (y :: pre), post. repeat split; [done |]. by constructor.
    + by constructor.
Qed.

(** C9, as stated, fails: a config that declares no legacy type is returned
    under the name of its file. *)
Lemma legacy_lookup_returns_undeclared :
  dev_legacy_type kogan_heater = None
  /\ config_for_legacy_use [goldair_fan; kogan_heater] "kogan_heater"
     = Some kogan_heater.
Proof. split; reflexivity. Qed.

(** C9, amended: the lookup returns the first config, in the order of the
    catalog, whose legacy type is the identifier asked for, and none when
    there is no such config; the legacy type of a config is the one it
    declares or, when it declares none, the name of its file without the
    extension. *)
Theorem config_for_legacy_use_first (configs : list device_doc) (conf_type : string) :
  match config_for_legacy_use configs conf_type with
  | Some parsed =>
      exists pre post,
        configs = pre ++ parsed :: post
        /\ TuyaDeviceConfig.legacy_type parsed = conf_type
        /\ Forall (fun c => TuyaDeviceConfig.legacy_type c <> conf_type) pre
  | None => Forall (fun c => TuyaDeviceConfig.legacy_type c <> conf_type) configs
  end
  /\ (forall c,
        TuyaDeviceConfig.legacy_type c
        = match dev_legacy_type c with
          | Some declared_type => declared_type
          | None => fst (splitext (dev_fname c))
          end).
Proof.
  split.
  - unfold config_for_legacy_use.
    pose proof (find_first
      (fun parsed => String.eqb (TuyaDeviceConfig.legacy_type parsed) conf_type)
      configs) as H.
    destruct (List.find _ configs) as [parsed |].
    + destruct H as (pre & post & -> & Hx & Hpre).
      exists pre, post. split; [done |]. split; [by apply String.eqb_eq |].
      eapply Forall_impl; [exact Hpre |]. intros c Hc. by apply String.eqb_neq.
    + eapply Forall_impl; [exact H |]. intros c Hc. by apply String.eqb_neq.
  - intros c. unfold TuyaDeviceConfig.legacy_type, TuyaDeviceConfig.config.
    by destruct (dev_legacy_type c).
Qed.

(** ** [_find_map_for_value] *)

Lemma last_cons_or {A : Type} (x : A) (l : list A) (d : option A) :
  match last (x :: l) with Some y => Some y | None => d end
  = match last l with Some y => Some y | None => Some x end.
Proof.
  destruct l as [| y l]; [done |].
  change (last (x :: y :: l)) with (last (y :: l)).
  destruct (proj2 (last_is_Some (y :: l))) as [z ->]; done.
Qed.

(** The loop returns the first rule that gives the value, else the last
    rule lacking [dps_val] that it has seen, else what it started with. *)
Lemma _find_map_for_value_loop_closed (value : val) (ms : list mapping_doc) :
  forall dflt,
    TuyaDpsConfig._find_map_for_value_loop ms value dflt
    = match List.find (gives value) ms with
      | Some m => Some m
      | None =>
          match last (List.filter lacks_dps_val ms) with
          | Some m => Some m
          | None => dflt
          end
      end.
Proof.
  induction ms as [| m ms IH]; intros dflt; simpl; [done |].
  unfold gives at 1, stringwise_equal at 1, python_equal.
  destruct (m_value m) as [v |]; simpl.
  - destruct (String.eqb (str v) (str value)); simpl; [done |].
    destruct (existsb _ _); [done |]. rewrite IH.
    destruct (List.find _ ms); [done |].
    unfold lacks_dps_val at 2. destruct (m_dps_val m); simpl; [done |].
    symmetry. apply last_cons_or.
  - destruct (existsb _ _); [done |]. rewrite IH.
    destruct (List.find _ ms); [done |].
    unfold lacks_dps_val at 2. destruct (m_dps_val m); simpl; [done |].
    symmetry. apply last_cons_or.
Qed.

Lemma find_filter_head {A : Type} (f : A -> bool) (l : list A) :
  List.find f l = head (List.filter f l).
Proof. induction l as [| x l IH]; simpl; [done |]. by destruct (f x). Qed.

Lemma last_head_short {A : Type} (l : list A) :
  (length l <= 1)%nat -> last l = head l.
Proof. destruct l as [| x [| y l]]; simpl; [done | done | lia]. Qed.

(** C5, as stated, fails: a condition's value override is compared with
    the requested value by [==], not as strings. The integer 1 of a
    condition is not found by the string "1", nor the string "1" by the
    integer 1, where the lookup the specification words finds the rule.
    And of two rules lacking [dps_val] the loop keeps the last one, not
    the first. *)
Lemma condition_value_not_stringwise :
  let rule1 := rule_with_condition_value (VInt 1) in
  let rule2 := rule_with_condition_value (VStr "1") in
  TuyaDpsConfig._find_map_for_value
    (dps_with_mapping 4 string_ "level" [rule1]) (VStr "1") = None
  /\ findRuleForSemantic [rule1] (VStr "1") = Some rule1
  /\ TuyaDpsConfig._find_map_for_value
       (dps_with_mapping 4 string_ "level" [rule2]) (VInt 1) = None
  /\ findRuleForSemantic [rule2] (VInt 1) = Some rule2
  /\ TuyaDpsConfig._find_map_for_value
       (dps_with_mapping 4 string_ "level" [plain_mapping; scaled_default])
       (VStr "high") = Some scaled_default
  /\ findRuleForSemantic [plain_mapping; scaled_default] (VStr "high")
     = Some plain_mapping.
Proof. repeat split; vm_compute; reflexivity. Qed.

(** C5, amended: for a mapping with at most one rule lacking [dps_val],
    the lookup of the write path scans the mapping in order and returns the
    first rule whose own value override equals the requested value as
    strings, or one of whose conditions' value overrides equals it by
    [==]; otherwise it returns the rule lacking [dps_val], if there is one. *)
Theorem _find_map_for_value_scan (self : dps_doc) (value : val) :
  (length (List.filter lacks_dps_val (d_mapping self)) <= 1)%nat ->
  TuyaDpsConfig._find_map_for_value self value
  = findRuleForSemantic_amended (d_mapping self) value.
Proof.
  intros Hone. unfold TuyaDpsConfig._find_map_for_value.
  rewrite _find_map_for_value_loop_closed.
  unfold findRuleForSemantic_amended, first_hit_or_default.
  destruct (List.find (gives value) (d_mapping self)); [done |].
  rewrite find_filter_head, <- (last_head_short _ Hone).
  by destruct (last _).
Qed.

(** The condition's value 1 is found by True, which it equals by [==]. *)
Lemma _find_map_for_value_scan_witness :
  let rule := rule_with_condition_value (VInt 1) in
  TuyaDpsConfig._find_map_for_value
    (dps_with_mapping 4 string_ "level" [rule; plain_mapping]) (VBool true)
  = Some rule.
Proof.
  intros rule.
  rewrite (_find_map_for_value_scan
             (dps_with_mapping 4 string_ "level" [rule; plain_mapping]) (VBool true)).
  - vm_compute. reflexivity.
  - vm_compute. lia.
Defined.

(** ** [_active_condition] *)

Lemma find_app_first {A : Type} (f : A -> bool) (pre post : list A) (x : A) :
  Forall (fun y => f y = false) pre -> f x = true ->
  List.find f (pre ++ x :: post) = Some x.
Proof.
  induction 1 as [| y pre Hy _ IH]; intros Hx; simpl.
  - by rewrite Hx.
  - rewrite Hy. by apply IH.
Qed.

(** [_active_condition] returns the active condition, and only it. *)
Lemma _active_condition_spec (entity : entity_doc) (mapping : mapping_doc)
    (device : dps_dict) (cond : condition_doc) :
  active_condition entity mapping device cond ->
  TuyaDpsConfig._active_condition entity mapping device = Some cond.
Proof.
  intros (conditions & pre & post & Hcs & -> & Hcond & Hpre).
  destruct Hcond as (constraint & c_dps & Hc & Hfind & Hval & Heq).
  unfold TuyaDpsConfig._active_condition. rewrite Hc, Hcs, Hfind.
  rewrite bool_decide_eq_false_2 by done.
  apply find_app_first; [| done].
  eapply Forall_impl; [exact Hpre |]. intros c Hn. simpl in Hn.
  destruct (Py.eq _ (default VNone (c_dps_val c))) eqn:E; [| done].
  destruct Hn. exists constraint, c_dps. repeat split; assumption.
Qed.

Lemma _active_condition_sound (entity : entity_doc) (mapping : mapping_doc)
    (device : dps_dict) (cond : condition_doc) :
  TuyaDpsConfig._active_condition entity mapping device = Some cond ->
  active_condition entity mapping device cond.
Proof.
  unfold TuyaDpsConfig._active_condition.
  destruct (m_constraint mapping) as [constraint |] eqn:Hc; [| done].
  destruct (m_conditions mapping) as [conditions |] eqn:Hcs; [| done].
  destruct (TuyaEntityConfig.find_dps entity constraint) as [c_dps |] eqn:Hf;
    [| by rewrite (bool_decide_eq_true_2 _ (eq_refl VNone))].
  destruct (decide (get_property device (TuyaDpsConfig.id c_dps) = VNone))
    as [Hn | Hn];
    [by rewrite (bool_decide_eq_true_2 _ Hn) | rewrite (bool_decide_eq_false_2 _ Hn)].
  intros Hfind.
  pose proof (find_first
    (fun c => Py.eq (get_property device (TuyaDpsConfig.id c_dps))
                    (default VNone (c_dps_val c))) conditions) as H.
  rewrite Hfind in H. destruct H as (pre & post & -> & Hx & Hpre).
  exists (pre ++ cond :: post), pre, post. split; [done |]. split; [done |]. split.
  - exists constraint, c_dps. repeat split; assumption.
  - eapply Forall_impl; [exact Hpre |]. intros c Hcf (k & cd & Hk & Hcd & _ & He).
    simpl in Hcf. rewrite Hc in Hk. injection Hk as <-.
    rewrite Hf in Hcd. injection Hcd as <-. congruence.
Qed.

(** ** [get_value] *)

(** C6: when the rule that applies to the current raw value has an active
    condition (the first condition, in declared order, whose constraint
    property currently holds the condition's activation value) and that
    condition is flagged invalid, [get_value] returns None, whatever value
    override, scale, redirect or nested mapping the rule and the condition
    carry. *)
Theorem get_value_invalid_is_None (fuel : nat) (entity : entity_doc)
    (self : dps_doc) (device : dps_dict) (value : val)
    (mapping : mapping_doc) (cond : condition_doc) :
  TuyaDpsConfig.destringified self (get_property device (TuyaDpsConfig.id self))
  = Ret value ->
  TuyaDpsConfig._find_map_for_dps self value = Some mapping ->
  active_condition entity mapping device cond ->
  flagged_invalid cond = true ->
  TuyaDpsConfig.get_value (S fuel) entity self device = Ret VNone.
Proof.
  intros Hvalue Hmap Hactive Hinvalid. simpl.
  unfold TuyaDpsConfig._map_from_dps. rewrite Hvalue. simpl.
  rewrite Hmap, (_active_condition_spec _ _ _ _ Hactive).
  unfold flagged_invalid in Hinvalid. by rewrite Hinvalid.
Qed.

(** The temperature while the mode is on: its rule has a value override, a
    scale and a redirect, its active condition has them too, and a nested
    mapping; the condition is flagged invalid. *)
Lemma get_value_invalid_is_None_witness :
  TuyaDpsConfig.get_value 1 climate temperature_dps device_mode_on = Ret VNone.
Proof.
  apply (get_value_invalid_is_None 0 climate temperature_dps device_mode_on
           (VInt 20) guarded_rule
           (default (plain_condition VNone)
              (head (default [] (m_conditions guarded_rule))))).
  - reflexivity.
  - reflexivity.
  - apply _active_condition_sound. vm_compute. reflexivity.
  - reflexivity.
Defined.

(** ** Fuel *)

Lemma below_refl {A : Type} (x : outcome A) : below x x.
Proof. by right. Qed.

Lemma below_bind {A B : Type} (x y : outcome A) (k k' : A -> outcome B) :
  below x y -> (forall a, below (k a) (k' a)) -> below (bind x k) (bind y k').
Proof.
  intros [-> | ->] Hk; [by left |]. destruct y; simpl; [apply Hk | by right | by right].
Qed.

Lemma below_fmap {A B : Type} (f : A -> B) (x y : outcome A) :
  below x y -> below (f <$> x) (f <$> y).
Proof. intros [-> | ->]; [by left | by right]. Qed.

Lemma below_trans {A : Type} (x y z : outcome A) :
  below x y -> below y z -> below x z.
Proof. intros [-> | ->] H; [by left | done]. Qed.

Lemma below_finished {A : Type} (x y : outcome A) :
  below x y -> x <> OutOfFuel -> y = x.
Proof. by intros [-> | ->]. Qed.

Lemma _map_from_dps_mono (rec1 rec2 : dps_doc -> outcome val)
    (entity : entity_doc) (self : dps_doc) (value : val) (device : dps_dict) :
  (forall d, below (rec1 d) (rec2 d)) ->
  below (TuyaDpsConfig._map_from_dps rec1 entity self value device)
        (TuyaDpsConfig._map_from_dps rec2 entity self value device).
Proof.
  intros Hrec. unfold TuyaDpsConfig._map_from_dps.
  apply below_bind; [apply below_refl |]. intros v.
  repeat case_match; try apply below_refl; apply Hrec.
Qed.

Lemma get_value_step (fuel : nat) (entity : entity_doc) (device : dps_dict) :
  forall self,
    below (TuyaDpsConfig.get_value fuel entity self device)
          (TuyaDpsConfig.get_value (S fuel) entity self device).
Proof.
  induction fuel as [| fuel IH]; intros self; [by left |].
  change (TuyaDpsConfig.get_value (S fuel) entity self device)
    with (TuyaDpsConfig._map_from_dps
            (fun r_dps => TuyaDpsConfig.get_value fuel entity r_dps device)
            entity self (get_property device (TuyaDpsConfig.id self)) device).
  change (TuyaDpsConfig.get_value (S (S fuel)) entity self device)
    with (TuyaDpsConfig._map_from_dps
            (fun r_dps => TuyaDpsConfig.get_value (S fuel) entity r_dps device)
            entity self (get_property device (TuyaDpsConfig.id self)) device).
  apply _map_from_dps_mono, IH.
Qed.

Lemma get_value_mono (entity : entity_doc) (self : dps_doc) (device : dps_dict)
    (n m : nat) :
  (n <= m)%nat ->
  below (TuyaDpsConfig.get_value n entity self device)
        (TuyaDpsConfig.get_value m entity self device).
Proof.
  induction 1 as [| m _ IH]; [apply below_refl |].
  eapply below_trans; [exact IH | apply get_value_step].
Qed.

Lemma side_effect_mono (rec1 rec2 : dps_doc -> val -> outcome dps_dict)
    (entity : entity_doc) (mapping : mapping_doc) (cond : condition_doc)
    (value : val) (dps_map : dps_dict) :
  (forall d v, below (rec1 d v) (rec2 d v)) ->
  below (TuyaDpsConfig.side_effect rec1 entity mapping cond value dps_map)
        (TuyaDpsConfig.side_effect rec2 entity mapping cond value dps_map).
Proof.
  intros Hrec. unfold TuyaDpsConfig.side_effect.
  repeat case_match; try apply below_refl.
  apply below_bind; [apply Hrec | intros; apply below_refl].
Qed.

Lemma pending_side_effect_mono (rec1 rec2 : dps_doc -> val -> outcome dps_dict)
    (entity : entity_doc) (mapping : mapping_doc) (device : dps_dict) (value : val) :
  (forall d v, below (rec1 d v) (rec2 d v)) ->
  below (pending_side_effect rec1 entity mapping device value)
        (pending_side_effect rec2 entity mapping device value).
Proof.
  intros Hrec. unfold pending_side_effect.
  case_match; [by apply side_effect_mono | apply below_refl].
Qed.

Lemma mapped_value_mono (rec1 rec2 : dps_doc -> val -> outcome dps_dict)
    (entity : entity_doc) (self : dps_doc) (device : dps_dict) (value : val) :
  (forall d v, below (rec1 d v) (rec2 d v)) ->
  below (TuyaDpsConfig.mapped_value rec1 entity self device value)
        (TuyaDpsConfig.mapped_value rec2 entity self device value).
Proof.
  intros Hrec. unfold TuyaDpsConfig.mapped_value.
  case_match; [| apply below_refl].
  apply below_bind.
  - case_match; [| apply below_refl].
    apply below_bind; [by apply side_effect_mono | intros; apply below_refl].
  - intros [[[dps_map scale] step] redirect].
    repeat case_match; try apply below_refl.
    apply below_fmap, Hrec.
Qed.

Lemma get_values_to_set_unfold (fuel : nat) (entity : entity_doc) (self : dps_doc)
    (device : dps_dict) (value : val) :
  TuyaDpsConfig.get_values_to_set (S fuel) entity self device value
  = (r <- TuyaDpsConfig.mapped_value
            (fun d v => TuyaDpsConfig.get_values_to_set fuel entity d device v)
            entity self device value;
     match r with
     | inl redirected => Ret redirected
     | inr (result, dps_map) =>
         _ <- TuyaDpsConfig.check_range entity self device value result;
         result <- TuyaDpsConfig.coerce self result;
         Ret (<[TuyaDpsConfig.id self := result]> dps_map)
     end).
Proof. reflexivity. Qed.

Lemma get_values_to_set_step (fuel : nat) (entity : entity_doc) (device : dps_dict) :
  forall self value,
    below (TuyaDpsConfig.get_values_to_set fuel entity self device value)
          (TuyaDpsConfig.get_values_to_set (S fuel) entity self device value).
Proof.
  induction fuel as [| fuel IH]; intros self value; [by left |].
  rewrite (get_values_to_set_unfold (S fuel)), (get_values_to_set_unfold fuel).
  apply below_bind; [apply mapped_value_mono, IH | intros; apply below_refl].
Qed.

Lemma get_values_to_set_mono (entity : entity_doc) (self : dps_doc)
    (device : dps_dict) (value : val) (n m : nat) :
  (n <= m)%nat ->
  below (TuyaDpsConfig.get_values_to_set n entity self device value)
        (TuyaDpsConfig.get_values_to_set m entity self device value).
Proof.
  induction 1 as [| m _ IH]; [apply below_refl |].
  eapply below_trans; [exact IH | apply get_values_to_set_step].
Qed.

(** ** Redirects *)

(** When a redirect is in force and no invalid condition is active,
    [_map_from_dps] is the call of [get_value] on the target. *)
Lemma _map_from_dps_redirect (rec : dps_doc -> outcome val) (entity : entity_doc)
    (self r_dps : dps_doc) (raw value : val) (device : dps_dict)
    (mapping : mapping_doc) (redirect : string) :
  TuyaDpsConfig.destringified self raw = Ret value ->
  TuyaDpsConfig._find_map_for_dps self value = Some mapping ->
  effective_redirect entity mapping device = Some redirect ->
  active_invalid entity mapping device = false ->
  TuyaEntityConfig.find_dps entity redirect = Some r_dps ->
  TuyaDpsConfig._map_from_dps rec entity self raw device = rec r_dps.
Proof.
  intros Hvalue Hmap Hred Hinv Hfind.
  unfold TuyaDpsConfig._map_from_dps. rewrite Hvalue. simpl. rewrite Hmap.
  unfold effective_redirect, active_invalid, flagged_invalid in *.
  destruct (TuyaDpsConfig._active_condition entity mapping device) as [cond |].
  - rewrite Hinv, Hred. by rewrite Hfind.
  - rewrite Hred. by rewrite Hfind.
Qed.

(** When a redirect is in force, the first part of [get_values_to_set] is
    the pending side effect, whose entries are dropped, and then the call
    of [get_values_to_set] on the target. *)
Lemma mapped_value_redirect (rec : dps_doc -> val -> outcome dps_dict)
    (entity : entity_doc) (self r_dps : dps_doc) (value : val) (device : dps_dict)
    (mapping : mapping_doc) (redirect : string) :
  TuyaDpsConfig._find_map_for_value self value = Some mapping ->
  effective_redirect entity mapping device = Some redirect ->
  TuyaEntityConfig.find_dps entity redirect = Some r_dps ->
  TuyaDpsConfig.mapped_value rec entity self device value
  = (_ <- pending_side_effect rec entity mapping device value;
     inl <$> rec r_dps value).
Proof.
  intros Hmap Hred Hfind.
  unfold TuyaDpsConfig.mapped_value, pending_side_effect. rewrite Hmap.
  unfold effective_redirect in Hred.
  destruct (TuyaDpsConfig._active_condition entity mapping device) as [cond |].
  - destruct (TuyaDpsConfig.side_effect _ _ _ _ _ _); simpl; [| done | done].
    rewrite Hred. by rewrite Hfind.
  - simpl. rewrite Hred. by rewrite Hfind.
Qed.

Lemma get_values_to_set_redirect (fuel : nat) (entity : entity_doc)
    (self r_dps : dps_doc) (value : val) (device : dps_dict)
    (mapping : mapping_doc) (redirect : string) :
  TuyaDpsConfig._find_map_for_value self value = Some mapping ->
  effective_redirect entity mapping device = Some redirect ->
  TuyaEntityConfig.find_dps entity redirect = Some r_dps ->
  TuyaDpsConfig.get_values_to_set (S fuel) entity self device value
  = (_ <- pending_side_effect
            (fun d v => TuyaDpsConfig.get_values_to_set fuel entity d device v)
            entity mapping device value;
     TuyaDpsConfig.get_values_to_set fuel entity r_dps device value).
Proof.
  intros Hmap Hred Hfind.
  rewrite get_values_to_set_unfold,
    (mapped_value_redirect _ _ _ _ _ _ _ _ Hmap Hred Hfind).
  destruct (pending_side_effect _ _ _ _ _); simpl; [| done | done].
  by destruct (TuyaDpsConfig.get_values_to_set fuel entity r_dps device value).
Qed.

(** C3, as stated, fails: the rule that applies to the temperature carries
    a redirect to the target, but while the mode is on its active condition
    is flagged invalid, and [get_value] on the temperature is None where
    [get_value] on the target is 5. On the write path, the rule of the
    alias redirects to the label, but the side effect of its active
    condition is computed first and raises, where [get_values_to_set] on
    the label returns. *)
Lemma redirect_loses_to_invalid_condition :
  (TuyaDpsConfig._find_map_for_dps temperature_dps (VInt 20) = Some guarded_rule
   /\ m_value_redirect guarded_rule = Some "target"
   /\ effective_redirect climate guarded_rule device_mode_on = Some "target"
   /\ TuyaEntityConfig.find_dps climate "target" = Some target_dps
   /\ TuyaDpsConfig.get_value 2 climate temperature_dps device_mode_on = Ret VNone
   /\ TuyaDpsConfig.get_value 2 climate target_dps device_mode_on = Ret (VInt 5))
  /\ (TuyaDpsConfig._find_map_for_value alias_dps (VStr "x") = Some alias_rule
      /\ effective_redirect labelled alias_rule device_level_50 = Some "label"
      /\ TuyaEntityConfig.find_dps labelled "label" = Some label_dps
      /\ TuyaDpsConfig.get_values_to_set 3 labelled alias_dps device_level_50 (VStr "x")
         = Raise (ValueError "level (50) must be between 0 and 10")
      /\ TuyaDpsConfig.get_values_to_set 3 labelled label_dps device_level_50 (VStr "x")
         = Ret {[ "6" := VStr "x" ]}).
Proof. repeat split; vm_compute; reflexivity. Qed.

(** C3, amended: let the redirect in force for the rule (the active
    condition's, when it has one, else the rule's own) name the sibling
    property B. If no active condition of the rule that applies to the
    current raw value of A is flagged invalid, [get_value] on A is
    [get_value] on B: A's own scale and value overrides play no part. And
    for a value resolved to the rule, if the side effect of the active
    condition, when there is one, returns, [get_values_to_set] on A is
    [get_values_to_set] on B: A contributes no entry of its own, and the
    entries of the side effect are dropped. *)
Theorem redirect_delegates (entity : entity_doc) (A B : dps_doc)
    (device : dps_dict) (redirect : string) :
  TuyaEntityConfig.find_dps entity redirect = Some B ->
  (forall value mapping,
     TuyaDpsConfig.destringified A (get_property device (TuyaDpsConfig.id A))
     = Ret value ->
     TuyaDpsConfig._find_map_for_dps A value = Some mapping ->
     effective_redirect entity mapping device = Some redirect ->
     active_invalid entity mapping device = false ->
     (forall fuel, TuyaDpsConfig.get_value (S fuel) entity A device
                   = TuyaDpsConfig.get_value fuel entity B device)
     /\ (forall r, get_value_finishes entity A device r
                   <-> get_value_finishes entity B device r))
  /\ (forall value mapping,
        TuyaDpsConfig._find_map_for_value A value = Some mapping ->
        effective_redirect entity mapping device = Some redirect ->
        side_effect_returns entity mapping device value ->
        forall r, get_values_to_set_finishes entity A device value r
                  <-> get_values_to_set_finishes entity B device value r).
Proof.
  intros Hfind. split.
  - intros value mapping Hvalue Hmap Hred Hinv.
    assert (forall fuel, TuyaDpsConfig.get_value (S fuel) entity A device
                         = TuyaDpsConfig.get_value fuel entity B device) as Heq.
    { intros fuel. simpl.
      by rewrite (_map_from_dps_redirect _ _ _ _ _ _ _ _ _
                    Hvalue Hmap Hred Hinv Hfind). }
    split; [exact Heq |]. intros r. split; intros [Hr [fuel Hf]]; (split; [done |]).
    + destruct fuel as [| fuel]; [by destruct Hr |].
      exists fuel. by rewrite <- Heq.
    + exists (S fuel). by rewrite Heq.
  - intros value mapping Hmap Hred [f1 [m Hside]] r.
    assert (forall fuel, (f1 <= fuel)%nat ->
              pending_side_effect
                (fun d v => TuyaDpsConfig.get_values_to_set fuel entity d device v)
                entity mapping device value = Ret m) as Hlate.
    { intros fuel Hle. rewrite <- Hside.
      apply below_finished; [| by rewrite Hside].
      apply pending_side_effect_mono. intros d v.
      by apply get_values_to_set_mono. }
    split; intros [Hr [fuel Hf]]; (split; [done |]).
    + destruct fuel as [| fuel]; [by destruct Hr |].
      rewrite (get_values_to_set_redirect _ _ _ _ _ _ _ _ Hmap Hred Hfind) in Hf.
      exists fuel.
      assert (below
        (pending_side_effect
           (fun d v => TuyaDpsConfig.get_values_to_set fuel entity d device v)
           entity mapping device value)
        (pending_side_effect
           (fun d v => TuyaDpsConfig.get_values_to_set (fuel `max` f1) entity d device v)
           entity mapping device value)) as Hb.
      { apply pending_side_effect_mono. intros d v.
        apply get_values_to_set_mono. lia. }
      rewrite (Hlate (fuel `max` f1)%nat) in Hb by lia.
      destruct Hb as [Hb | Hb]; rewrite Hb in Hf; simpl in Hf; [by destruct Hr | done].
    + exists (S (fuel `max` f1)).
      rewrite (get_values_to_set_redirect _ _ _ _ _ _ _ _ Hmap Hred Hfind).
      rewrite Hlate by lia. simpl.
      apply below_finished; [| done].
      rewrite <- Hf. apply get_values_to_set_mono. lia.
Qed.

(** The temperature while the mode is off: no condition is active, and the
    rule redirects to the target. *)
Lemma redirect_delegates_witness :
  (forall r, get_value_finishes climate temperature_dps device_mode_off r
             <-> get_value_finishes climate target_dps device_mode_off r)
  /\ (forall r,
        get_values_to_set_finishes climate temperature_dps device_mode_off (VInt 7) r
        <-> get_values_to_set_finishes climate target_dps device_mode_off (VInt 7) r).
Proof.
  pose proof (redirect_delegates climate temperature_dps target_dps
                device_mode_off "target" eq_refl) as [Hread Hwrite].
  split.
  - apply (Hread (VInt 20) guarded_rule); reflexivity.
  - apply (Hwrite (VInt 7) guarded_rule); [reflexivity | reflexivity |].
    exists 0%nat, ∅. reflexivity.
Defined.

(** ** The range check *)

Lemma lt_number (a b : val) :
  is_number a = true -> is_number b = true -> exists r, Py.lt a b = Ret r.
Proof.
  intros Ha Hb. unfold Py.lt.
  destruct a; try discriminate; destruct b; try discriminate; simpl; eauto.
Qed.

Lemma check_range_outside (entity : entity_doc) (self : dps_doc) (device : dps_dict)
    (value result : val) (r : range_doc) (minimum maximum : val) :
  TuyaDpsConfig.range entity self device = Some r ->
  r_min r = Some minimum -> r_max r = Some maximum ->
  Py.lt result minimum = Ret true
  \/ (Py.lt result minimum = Ret false /\ Py.gt result maximum = Ret true) ->
  TuyaDpsConfig.check_range entity self device value result
  = Raise (ValueError (TuyaDpsConfig.range_message self value minimum maximum)).
Proof.
  intros Hr Hmin Hmax H. unfold TuyaDpsConfig.check_range.
  rewrite Hr, Hmin, Hmax.
  destruct H as [-> | [-> ->]]; reflexivity.
Qed.

Lemma check_range_inside (entity : entity_doc) (self : dps_doc) (device : dps_dict)
    (value result : val) (r : range_doc) (minimum maximum : val) :
  TuyaDpsConfig.range entity self device = Some r ->
  r_min r = Some minimum -> r_max r = Some maximum ->
  Py.lt result minimum = Ret false -> Py.gt result maximum = Ret false ->
  TuyaDpsConfig.check_range entity self device value result = Ret ().
Proof.
  intros Hr Hmin Hmax Hlo Hhi. unfold TuyaDpsConfig.check_range.
  by rewrite Hr, Hmin, Hmax, Hlo, Hhi.
Qed.

Lemma SFcompare_refl (f : spec_float) : SFcompare f f <> Some Lt.
Proof.
  destruct f as [[] | [] | | [] m e]; simpl; try discriminate;
    rewrite Z.compare_refl, Pos.compare_cont_refl; discriminate.
Qed.

Lemma lt_irrefl (a : val) : is_number a = true -> Py.lt a a = Ret false.
Proof.
  intros Ha. unfold Py.lt.
  destruct a as [| b | z | f |]; try discriminate; simpl; f_equal;
    apply bool_decide_eq_false_2.
  - by destruct b.
  - by rewrite Z.compare_refl.
  - apply SFcompare_refl.
Qed.

(** C4: when the raw value that [get_values_to_set] has computed for the
    property (after the substitution of [dps_val], the scale and the step)
    is a number strictly below the minimum or strictly above the maximum of
    the range that applies, the call raises the range violation, whose
    text names the property, the value asked for and the two bounds, and
    returns no map; a raw value that is neither below the minimum nor
    above the maximum, and so each of the two bounds, passes the check
    and goes on to be stored. *)
Theorem get_values_to_set_range_violation (fuel : nat) (entity : entity_doc)
    (self : dps_doc) (device : dps_dict) (value result : val)
    (dps_map : dps_dict) (r : range_doc) (minimum maximum : val) :
  TuyaDpsConfig.mapped_value
    (fun d v => TuyaDpsConfig.get_values_to_set fuel entity d device v)
    entity self device value = Ret (inr (result, dps_map)) ->
  TuyaDpsConfig.range entity self device = Some r ->
  r_min r = Some minimum -> r_max r = Some maximum ->
  is_number result = true -> is_number minimum = true -> is_number maximum = true ->
  (Py.lt result minimum = Ret true \/ Py.gt result maximum = Ret true ->
   TuyaDpsConfig.get_values_to_set (S fuel) entity self device value
   = Raise (ValueError
       (TuyaDpsConfig.name self +:+ " (" +:+ str value +:+ ") must be between "
          +:+ str minimum +:+ " and " +:+ str maximum)))
  /\ (Py.lt result minimum = Ret false /\ Py.gt result maximum = Ret false
      \/ (result = minimum \/ result = maximum)
         /\ Py.gt minimum maximum = Ret false ->
      TuyaDpsConfig.get_values_to_set (S fuel) entity self device value
      = (coerced <- TuyaDpsConfig.coerce self result;
         Ret (<[TuyaDpsConfig.id self := coerced]> dps_map))).
Proof.
  intros Hmapped Hr Hmin Hmax Hn Hnmin Hnmax.
  rewrite get_values_to_set_unfold, Hmapped. simpl. split.
  - intros H.
    rewrite (check_range_outside _ _ _ _ _ _ _ _ Hr Hmin Hmax); [done |].
    destruct (lt_number result minimum Hn Hnmin) as [[] Hlt]; [by left |].
    right. split; [done |]. by destruct H as [H | H]; [congruence |].
  - intros H.
    assert (Py.lt result minimum = Ret false /\ Py.gt result maximum = Ret false)
      as [Hlo Hhi].
    { destruct H as [H | [[-> | ->] Hle]]; [done | |]; unfold Py.gt in *.
      - split; [by apply lt_irrefl | done].
      - split; [done | by apply lt_irrefl]. }
    by rewrite (check_range_inside _ _ _ _ _ _ _ _ Hr Hmin Hmax Hlo Hhi).
Qed.

(** With the scale 10 and the range 0..100, 15 maps to the raw value 150
    and is refused; 10 maps to the bound 100 and is stored. *)
Lemma get_values_to_set_range_violation_witness :
  TuyaDpsConfig.get_values_to_set 1 heater scaled_dps device_heater (VInt 15)
  = Raise (ValueError "temperature (15) must be between 0 and 100")
  /\ TuyaDpsConfig.get_values_to_set 1 heater scaled_dps device_heater (VInt 10)
     = Ret {[ "2" := VInt 100 ]}.
Proof.
  split.
  - apply (proj1 (get_values_to_set_range_violation 0 heater scaled_dps
             device_heater (VInt 15) (VInt 150) ∅
             {| r_min := Some (VInt 0); r_max := Some (VInt 100) |}
             (VInt 0) (VInt 100)
             eq_refl eq_refl eq_refl eq_refl eq_refl eq_refl eq_refl)).
    right. reflexivity.
  - apply (proj2 (get_values_to_set_range_violation 0 heater scaled_dps
             device_heater (VInt 10) (VInt 100) ∅
             {| r_min := Some (VInt 0); r_max := Some (VInt 100) |}
             (VInt 0) (VInt 100)
             eq_refl eq_refl eq_refl eq_refl eq_refl eq_refl eq_refl)).
    right. split; [by right | reflexivity].
Defined.

(** ** Termination *)

(** Nothing but the two recursive methods runs out of fuel. *)
Lemma finished_bind {A B : Type} (x : outcome A) (k : A -> outcome B) :
  finished x -> (forall a, finished (k a)) -> finished (bind x k).
Proof. destruct x; simpl; [by auto | done | done]. Qed.

Lemma finished_fmap {A B : Type} (f : A -> B) (x : outcome A) :
  finished x -> finished (f <$> x).
Proof. by destruct x. Qed.

Lemma finished_except {A : Type} (c h : outcome A) :
  finished c -> finished h -> finished (except_ValueError c h).
Proof. destruct c as [| [] |]; done. Qed.

Ltac finish :=
  repeat first
    [ done
    | progress intros
    | apply finished_bind
    | apply finished_fmap
    | apply finished_except
    | case_match ].

Lemma finished_f_of_Z (z : Z) : finished (Py.f_of_Z z).
Proof. unfold Py.f_of_Z. finish. Qed.

Lemma finished_int_truediv (a b : Z) : finished (Py.int_truediv a b).
Proof. unfold Py.int_truediv. finish. Qed.

Lemma finished_num_to_float (a : num) : finished (Py.num_to_float a).
Proof. destruct a; [apply finished_f_of_Z | done]. Qed.

Lemma finished_truediv (a b : val) : finished (Py.truediv a b).
Proof.
  unfold Py.truediv.
  repeat case_match; try done;
    first [ apply finished_fmap, finished_int_truediv
          | apply finished_bind; [apply finished_num_to_float |]; intros;
            apply finished_bind; [apply finished_num_to_float |]; intros;
            by case_match ].
Qed.

Lemma finished_mul (a b : val) : finished (Py.mul a b).
Proof.
  unfold Py.mul.
  repeat case_match; try done;
    (apply finished_bind; [apply finished_num_to_float |]; intros;
     apply finished_bind; [apply finished_num_to_float |]; done).
Qed.

Lemma finished_round (v : val) : finished (Py.round v).
Proof. destruct v as [| [] | | [] |]; done. Qed.

Lemma finished_to_float (v : val) : finished (Py.to_float v).
Proof.
  destruct v as [| [] | | |]; simpl; try done; [apply finished_f_of_Z | by case_match].
Qed.

Lemma finished_to_int (v : val) : finished (Py.to_int v).
Proof. destruct v as [| [] | | [] |]; simpl; try done. by case_match. Qed.

Lemma finished_call (t : Py.type) (v : val) : finished (Py.call t v).
Proof.
  destruct t; simpl; try done;
    apply finished_fmap; [apply finished_to_int | apply finished_to_float].
Qed.

Lemma finished_lt (a b : val) : finished (Py.lt a b).
Proof. unfold Py.lt. repeat case_match; done. Qed.

Lemma finished_destringified (self : dps_doc) (value : val) :
  finished (TuyaDpsConfig.destringified self value).
Proof.
  unfold TuyaDpsConfig.destringified. case_match; [| done].
  apply finished_except; [apply finished_call | done].
Qed.

Lemma finished_stepped (result step : val) : finished (TuyaDpsConfig.stepped result step).
Proof.
  unfold TuyaDpsConfig.stepped.
  apply finished_bind; [apply finished_to_float |]; intros.
  apply finished_bind; [apply finished_truediv |]; intros.
  apply finished_bind; [apply finished_round |]; intros.
  apply finished_mul.
Qed.

Lemma finished_check_range (entity : entity_doc) (self : dps_doc)
    (device : dps_dict) (value result : val) :
  finished (TuyaDpsConfig.check_range entity self device value result).
Proof.
  unfold TuyaDpsConfig.check_range. repeat case_match; try done.
  apply finished_bind; [apply finished_lt |]; intros.
  apply finished_bind; [case_match; [done | apply finished_lt] |]; intros.
  by case_match.
Qed.

Lemma finished_coerce (self : dps_doc) (result : val) :
  finished (TuyaDpsConfig.coerce self result).
Proof.
  unfold TuyaDpsConfig.coerce. apply finished_bind; [| done].
  case_match; try done; apply finished_fmap;
    [apply finished_round | apply finished_to_float].
Qed.

Lemma _find_map_for_dps_loop_elem (value : val) (ms : list mapping_doc) :
  forall dflt m,
    TuyaDpsConfig._find_map_for_dps_loop ms value dflt = Some m ->
    m ∈ ms \/ dflt = Some m.
Proof.
  induction ms as [| m0 ms IH]; intros dflt m; simpl; [by right |].
  destruct (m_dps_val m0) as [dv |].
  - destruct (String.eqb _ _).
    + intros [= ->]. left. by left.
    + intros H. destruct (IH _ _ H) as [? | ?]; [left; by right | by right].
  - intros H. destruct (IH _ _ H) as [? | [= ->]]; left; [by right | by left].
Qed.

Lemma _find_map_for_dps_elem (self : dps_doc) (value : val) (m : mapping_doc) :
  TuyaDpsConfig._find_map_for_dps self value = Some m -> m ∈ d_mapping self.
Proof.
  intros H. by destruct (_find_map_for_dps_loop_elem _ _ _ _ H).
Qed.

Lemma _find_map_for_value_loop_elem (value : val) (ms : list mapping_doc) :
  forall dflt m,
    TuyaDpsConfig._find_map_for_value_loop ms value dflt = Some m ->
    m ∈ ms \/ dflt = Some m.
Proof.
  induction ms as [| m0 ms IH]; intros dflt m; simpl; [by right |].
  repeat case_match; try (intros [= ->]; left; by left);
    intros Hloop; destruct (IH _ _ Hloop) as [? | E];
    try (left; by right); try (by right);
    injection E as ->; left; by left.
Qed.

Lemma _find_map_for_value_elem (self : dps_doc) (value : val) (m : mapping_doc) :
  TuyaDpsConfig._find_map_for_value self value = Some m -> m ∈ d_mapping self.
Proof.
  intros H. by destruct (_find_map_for_value_loop_elem _ _ _ _ H).
Qed.

Lemma _active_condition_elem (entity : entity_doc) (mapping : mapping_doc)
    (device : dps_dict) (cond : condition_doc) :
  TuyaDpsConfig._active_condition entity mapping device = Some cond ->
  exists conditions,
    m_conditions mapping = Some conditions /\ cond ∈ conditions.
Proof.
  intros H. apply _active_condition_sound in H
    as (conditions & pre & post & Hcs & -> & _).
  exists (pre ++ cond :: post). split; [done |].
  apply elem_of_app. right. by left.
Qed.

Lemma elem_of_concat {A : Type} (x : A) (ls : list (list A)) :
  x ∈ concat ls <-> exists l, x ∈ l /\ l ∈ ls.
Proof.
  rewrite list_elem_of_In, in_concat. split; intros (l & H1 & H2); exists l.
  - by rewrite !list_elem_of_In.
  - by rewrite <- !list_elem_of_In.
Qed.

Lemma elem_of_dps_refs (self : dps_doc) (mapping : mapping_doc) (name : string) :
  mapping ∈ d_mapping self -> name ∈ mapping_refs mapping -> name ∈ dps_refs self.
Proof.
  intros Hm Hn. unfold dps_refs. apply elem_of_concat.
  exists (mapping_refs mapping). split; [done |]. by apply list_elem_of_fmap_2.
Qed.

Lemma refers_redirect (entity : entity_doc) (self d' : dps_doc)
    (mapping : mapping_doc) (redirect : string) :
  mapping ∈ d_mapping self -> m_value_redirect mapping = Some redirect ->
  TuyaEntityConfig.find_dps entity redirect = Some d' -> refers entity self d'.
Proof.
  intros Hm Hr Hf. exists redirect. split; [| done].
  apply (elem_of_dps_refs _ mapping); [done |].
  unfold mapping_refs. rewrite Hr. simpl. by left.
Qed.

Lemma refers_constraint (entity : entity_doc) (self d' : dps_doc)
    (mapping : mapping_doc) (constraint : string) :
  mapping ∈ d_mapping self -> m_constraint mapping = Some constraint ->
  TuyaEntityConfig.find_dps entity constraint = Some d' -> refers entity self d'.
Proof.
  intros Hm Hc Hf. exists constraint. split; [| done].
  apply (elem_of_dps_refs _ mapping); [done |].
  unfold mapping_refs. rewrite Hc. rewrite !elem_of_app. right. left. by left.
Qed.

Lemma refers_condition_redirect (entity : entity_doc) (self d' : dps_doc)
    (mapping : mapping_doc) (device : dps_dict) (cond : condition_doc)
    (redirect : string) :
  mapping ∈ d_mapping self ->
  TuyaDpsConfig._active_condition entity mapping device = Some cond ->
  c_value_redirect cond = Some (Some redirect) ->
  TuyaEntityConfig.find_dps entity redirect = Some d' -> refers entity self d'.
Proof.
  intros Hm Hc Hr Hf. exists redirect. split; [| done].
  apply (elem_of_dps_refs _ mapping); [done |].
  destruct (_active_condition_elem _ _ _ _ Hc) as (conditions & Hcs & Hin).
  unfold mapping_refs. rewrite Hcs. rewrite !elem_of_app. right. right.
  apply elem_of_concat. exists (condition_refs cond).
  split; [| by apply list_elem_of_fmap_2].
  unfold condition_refs. rewrite Hr. by left.
Qed.

(** [_map_from_dps] finishes when the calls it may make do: those are
    calls on properties that [self] refers to. *)
Lemma _map_from_dps_finished (rec : dps_doc -> outcome val) (entity : entity_doc)
    (self : dps_doc) (value : val) (device : dps_dict) :
  (forall d', refers entity self d' -> finished (rec d')) ->
  finished (TuyaDpsConfig._map_from_dps rec entity self value device).
Proof.
  intros Hrec. unfold TuyaDpsConfig._map_from_dps.
  apply finished_bind; [apply finished_destringified |]. intros v.
  destruct (TuyaDpsConfig._find_map_for_dps self v) as [mapping |] eqn:Hmap;
    [| done].
  apply _find_map_for_dps_elem in Hmap.
  destruct (TuyaDpsConfig._active_condition entity mapping device)
    as [cond |] eqn:Hcond.
  - case_match; [done |].
    destruct (c_value_redirect cond) as [[redirect |] |] eqn:Hcr; simpl.
    + destruct (TuyaEntityConfig.find_dps entity redirect) as [r_dps |] eqn:Hf;
        [| done].
      eapply Hrec, refers_condition_redirect; eauto.
    + case_match; [apply finished_truediv | done].
    + destruct (m_value_redirect mapping) as [redirect |] eqn:Hr.
      * destruct (TuyaEntityConfig.find_dps entity redirect) as [r_dps |] eqn:Hf;
          [| done].
        eapply Hrec, refers_redirect; eauto.
      * case_match; [apply finished_truediv | done].
  - destruct (m_value_redirect mapping) as [redirect |] eqn:Hr.
    + destruct (TuyaEntityConfig.find_dps entity redirect) as [r_dps |] eqn:Hf;
        [| done].
      eapply Hrec, refers_redirect; eauto.
    + case_match; [apply finished_truediv | done].
Qed.

Lemma side_effect_finished (rec : dps_doc -> val -> outcome dps_dict)
    (entity : entity_doc) (self : dps_doc) (mapping : mapping_doc)
    (cond : condition_doc) (value : val) (dps_map : dps_dict) :
  mapping ∈ d_mapping self ->
  (forall d' v, refers entity self d' -> finished (rec d' v)) ->
  finished (TuyaDpsConfig.side_effect rec entity mapping cond value dps_map).
Proof.
  intros Hm Hrec. unfold TuyaDpsConfig.side_effect.
  case_match; [| done].
  destruct (m_constraint mapping) as [constraint |] eqn:Hc; [| done].
  destruct (TuyaEntityConfig.find_dps entity constraint) as [c_dps |] eqn:Hf;
    [| done].
  case_match; [| done].
  apply finished_bind; [| done].
  eapply Hrec, refers_constraint; eauto.
Qed.

Ltac finish_plain :=
  apply finished_bind; [case_match; [apply finished_mul | done] |]; intros;
  apply finished_bind; [| done];
  case_match; [apply finished_stepped | done].

Lemma mapped_value_finished (rec : dps_doc -> val -> outcome dps_dict)
    (entity : entity_doc) (self : dps_doc) (device : dps_dict) (value : val) :
  (forall d' v, refers entity self d' -> finished (rec d' v)) ->
  finished (TuyaDpsConfig.mapped_value rec entity self device value).
Proof.
  intros Hrec. unfold TuyaDpsConfig.mapped_value.
  destruct (TuyaDpsConfig._find_map_for_value self value) as [mapping |] eqn:Hmap;
    [| done].
  apply _find_map_for_value_elem in Hmap.
  destruct (TuyaDpsConfig._active_condition entity mapping device)
    as [cond |] eqn:Hcond; simpl.
  - pose proof (side_effect_finished rec entity self mapping cond value ∅
                  Hmap Hrec) as Hside.
    destruct (TuyaDpsConfig.side_effect rec entity mapping cond value ∅)
      as [dm | e |]; simpl; [| done | done].
    destruct (c_value_redirect cond) as [[redirect |] |] eqn:Hcr; simpl.
    + destruct (TuyaEntityConfig.find_dps entity redirect) as [r_dps |] eqn:Hf;
        [| done].
      eapply finished_fmap, Hrec, refers_condition_redirect; eauto.
    + finish_plain.
    + destruct (m_value_redirect mapping) as [redirect |] eqn:Hr.
      * destruct (TuyaEntityConfig.find_dps entity redirect) as [r_dps |] eqn:Hf;
          [| done].
        eapply finished_fmap, Hrec, refers_redirect; eauto.
      * finish_plain.
  - destruct (m_value_redirect mapping) as [redirect |] eqn:Hr.
    + destruct (TuyaEntityConfig.find_dps entity redirect) as [r_dps |] eqn:Hf;
        [| done].
      eapply finished_fmap, Hrec, refers_redirect; eauto.
    + finish_plain.
Qed.

(** *** Chains of references *)

Section Chains.

Context {A : Type} (R : A -> A -> Prop).

Lemma chain_tail (x : A) (l : list A) : chain R (x :: l) -> chain R l.
Proof. destruct l as [| y l]; simpl; [done | by intros [_ ?]]. Qed.

(** Every earlier element of a chain reaches its head. *)
Lemma chain_reaches (x : A) (l : list A) :
  chain R (x :: l) -> forall y, y ∈ l -> tc R y x.
Proof.
  revert x. induction l as [| z l IH]; intros x Hc y Hy; [by apply elem_of_nil in Hy |].
  destruct Hc as [Hzx Hc].
  apply elem_of_cons in Hy as [-> | Hy]; [by apply tc_once |].
  eapply tc_r; [by apply IH | done].
Qed.

(** Where nothing reaches itself, a chain never repeats an element. *)
Lemma chain_NoDup (l : list A) :
  (forall x, ~ tc R x x) -> chain R l -> NoDup l.
Proof.
  intros Hacyclic. induction l as [| x l IH]; intros Hc; [constructor |].
  constructor; [| by apply IH, (chain_tail x)].
  intros Hx. apply (Hacyclic x). by apply (chain_reaches x l).
Qed.

End Chains.

Lemma find_dps_elem (entity : entity_doc) (name : string) (d : dps_doc) :
  TuyaEntityConfig.find_dps entity name = Some d -> d ∈ e_dps entity.
Proof.
  unfold TuyaEntityConfig.find_dps, TuyaEntityConfig.dps. intros H.
  apply find_some in H as [H _]. by apply list_elem_of_In.
Qed.

Lemma refers_elem (entity : entity_doc) (d d' : dps_doc) :
  refers entity d d' -> d' ∈ e_dps entity.
Proof. intros (name & _ & H). by eapply find_dps_elem. Qed.

(** A chain of references in an acyclic entity is no longer than the list
    of its properties. *)
Lemma chain_short (entity : entity_doc) (l : list dps_doc) :
  acyclic entity -> chain (refers entity) l ->
  (forall d, d ∈ l -> d ∈ e_dps entity) ->
  (length l <= length (e_dps entity))%nat.
Proof.
  intros Hacyclic Hchain Hin.
  apply submseteq_length, NoDup_submseteq; [| done].
  by apply (chain_NoDup (refers entity)).
Qed.

(** With [path] the properties through which the call on [self] was
    reached, the fuel that is left is enough. *)
Lemma get_value_enough (entity : entity_doc) (device : dps_dict) :
  acyclic entity ->
  forall n path self,
    chain (refers entity) (self :: path) ->
    (forall d, d ∈ self :: path -> d ∈ e_dps entity) ->
    (length (e_dps entity) <= n + length path)%nat ->
    finished (TuyaDpsConfig.get_value n entity self device).
Proof.
  intros Hacyclic. induction n as [| n IH]; intros path self Hchain Hin Hlen.
  - pose proof (chain_short entity (self :: path) Hacyclic Hchain Hin) as Hs.
    simpl in Hs. lia.
  - simpl. apply _map_from_dps_finished. intros d' Hd'.
    apply (IH (self :: path)).
    + by split.
    + intros d Hd. apply elem_of_cons in Hd as [-> | Hd]; [| by apply Hin].
      by eapply refers_elem.
    + simpl. lia.
Qed.

Lemma get_values_to_set_enough (entity : entity_doc) (device : dps_dict) :
  acyclic entity ->
  forall n path self value,
    chain (refers entity) (self :: path) ->
    (forall d, d ∈ self :: path -> d ∈ e_dps entity) ->
    (length (e_dps entity) <= n + length path)%nat ->
    finished (TuyaDpsConfig.get_values_to_set n entity self device value).
Proof.
  intros Hacyclic. induction n as [| n IH]; intros path self value Hchain Hin Hlen.
  - pose proof (chain_short entity (self :: path) Hacyclic Hchain Hin) as Hs.
    simpl in Hs. lia.
  - rewrite get_values_to_set_unfold. apply finished_bind.
    + apply mapped_value_finished. intros d' v Hd'.
      apply (IH (self :: path)).
      * by split.
      * intros d Hd. apply elem_of_cons in Hd as [-> | Hd]; [| by apply Hin].
        by eapply refers_elem.
      * simpl. lia.
    + intros [redirected | [result dps_map]]; [done |].
      apply finished_bind; [apply finished_check_range |]. intros _.
      apply finished_bind; [apply finished_coerce | done].
Qed.

(** For any property, of the entity or not, one unit of fuel more than the
    entity has properties is enough. *)
Lemma get_value_terminates (entity : entity_doc) (self : dps_doc) (device : dps_dict) :
  acyclic entity ->
  finished (TuyaDpsConfig.get_value (S (length (e_dps entity))) entity self device).
Proof.
  intros Hacyclic. simpl. apply _map_from_dps_finished. intros d' Hd'.
  apply (get_value_enough entity device Hacyclic _ []).
  - done.
  - intros d Hd. apply list_elem_of_singleton in Hd as ->. by eapply refers_elem.
  - simpl. lia.
Qed.

Lemma get_values_to_set_terminates (entity : entity_doc) (self : dps_doc)
    (device : dps_dict) (value : val) :
  acyclic entity ->
  finished (TuyaDpsConfig.get_values_to_set (S (length (e_dps entity)))
              entity self device value).
Proof.
  intros Hacyclic. rewrite get_values_to_set_unfold. apply finished_bind.
  - apply mapped_value_finished. intros d' v Hd'.
    apply (get_values_to_set_enough entity device Hacyclic _ []).
    + done.
    + intros d Hd. apply list_elem_of_singleton in Hd as ->. by eapply refers_elem.
    + simpl. lia.
  - intros [redirected | [result dps_map]]; [done |].
    apply finished_bind; [apply finished_check_range |]. intros _.
    apply finished_bind; [apply finished_coerce | done].
Qed.

(** The property that redirects to itself: no fuel is enough. *)
Lemma loop_get_value (fuel : nat) :
  TuyaDpsConfig.get_value fuel loop_entity loop_dps ∅ = OutOfFuel.
Proof. induction fuel as [| fuel IH]; [done |]. simpl. exact IH. Qed.

Lemma loop_get_values_to_set (fuel : nat) (value : val) :
  TuyaDpsConfig.get_values_to_set fuel loop_entity loop_dps ∅ value = OutOfFuel.
Proof.
  induction fuel as [| fuel IH]; [done |].
  rewrite get_values_to_set_unfold.
  rewrite (mapped_value_redirect _ loop_entity loop_dps loop_dps value ∅
             (default plain_mapping (head (d_mapping loop_dps))) "loop");
    [| reflexivity | reflexivity | reflexivity].
  unfold pending_side_effect. simpl. by rewrite IH.
Qed.

Lemma acyclic_of_rank (entity : entity_doc) (rank : dps_doc -> nat) :
  (forall x y, refers entity x y -> (rank y < rank x)%nat) -> acyclic entity.
Proof.
  intros Hrank.
  assert (forall x y, tc (refers entity) x y -> (rank y < rank x)%nat) as Htc.
  { induction 1 as [x y H | x y z H _ IH]; [by apply Hrank |].
    apply Hrank in H. lia. }
  intros d Hd. apply Htc in Hd. lia.
Qed.

Lemma climate_acyclic : acyclic climate.
Proof.
  apply (acyclic_of_rank climate climate_rank).
  intros x y (name & Hname & Hfind).
  pose proof (find_dps_elem _ _ _ Hfind) as Hy.
  unfold climate_rank at 2.
  destruct (decide (x = temperature_dps)) as [-> | Hx].
  - vm_compute in Hname.
    assert (name = "target" \/ name = "mode") as [-> | ->].
    { repeat (apply elem_of_cons in Hname as [Hname | Hname]; [by auto |]).
      by apply elem_of_nil in Hname. }
    + vm_compute in Hfind. injection Hfind as <-. vm_compute. lia.
    + vm_compute in Hfind. injection Hfind as <-. vm_compute. lia.
  - destruct (decide (x = mode_dps \/ x = target_dps)) as [[-> | ->] | Hx'].
    + vm_compute in Hname. by apply elem_of_nil in Hname.
    + vm_compute in Hname. by apply elem_of_nil in Hname.
    + unfold climate, entity_of in Hy. simpl in Hy.
      repeat (apply elem_of_cons in Hy as [-> | Hy]; [vm_compute; lia |]).
      by apply elem_of_nil in Hy.
Qed.

(** C10: in a device schema in which the reference graph of every entity
    (the redirect targets and the constraint properties that its rules and
    conditions name) is acyclic, [get_value] and [get_values_to_set] finish
    on every snapshot and every requested value: as many units of fuel as
    the entity has properties, and one more, are enough. The calls carry no
    guard against cycles: on a property that redirects to itself neither of
    them finishes, whatever the fuel. *)
Theorem acyclic_terminates :
  (forall schema, schema_acyclic schema ->
     forall entity, entity ∈ entities schema ->
     forall self device value,
       (exists r, get_value_finishes entity self device r)
       /\ (exists r, get_values_to_set_finishes entity self device value r))
  /\ ~ acyclic loop_entity
  /\ (forall fuel value,
        TuyaDpsConfig.get_value fuel loop_entity loop_dps ∅ = OutOfFuel
        /\ TuyaDpsConfig.get_values_to_set fuel loop_entity loop_dps ∅ value
           = OutOfFuel).
Proof.
  split; [| split].
  - intros schema Hschema entity Hentity self device value.
    assert (acyclic entity) as Hacyclic.
    { unfold schema_acyclic in Hschema. rewrite Forall_forall in Hschema.
      by apply Hschema. }
    split.
    + exists (TuyaDpsConfig.get_value (S (length (e_dps entity))) entity self device).
      split; [by apply get_value_terminates | by eexists].
    + exists (TuyaDpsConfig.get_values_to_set (S (length (e_dps entity)))
                entity self device value).
      split; [by apply get_values_to_set_terminates | by eexists].
  - intros H. apply (H loop_dps), tc_once. exists "loop". split; [| reflexivity].
    vm_compute. by left.
  - intros fuel value. split; [apply loop_get_value | apply loop_get_values_to_set].
Qed.

(** The entity of the examples is acyclic. *)
Lemma acyclic_terminates_witness :
  (exists r, get_value_finishes climate temperature_dps device_mode_on r)
  /\ (exists r,
        get_values_to_set_finishes climate temperature_dps device_mode_on (VInt 7) r).
Proof.
  assert (schema_acyclic climate_schema) as Hschema.
  { repeat constructor. apply climate_acyclic. }
  assert (climate ∈ entities climate_schema) as Hentity by by left.
  exact (proj1 acyclic_terminates climate_schema Hschema climate Hentity
           temperature_dps device_mode_on (VInt 7)).
Defined.

(** ** The examples of the specification *)

(** The rule [dps_val = 1 <-> value = "on"] reads 1 as "on" and writes "on"
    as 1. *)
Example mapping_round_trip :
  TuyaDpsConfig.get_value 1 thermostat onoff_dps {[ "1" := VInt 1 ]} = Ret (VStr "on")
  /\ TuyaDpsConfig.get_values_to_set 1 thermostat onoff_dps {[ "1" := VInt 0 ]}
       (VStr "on") = Ret {[ "1" := VInt 1 ]}.
Proof. split; vm_compute; reflexivity. Qed.

(** The raw value 250 with the scale 10 reads as 25.0, and 5 is written
    back as 50. *)
Example scale_round_trip :
  str <$> TuyaDpsConfig.get_value 1 heater scaled_dps {[ "2" := VInt 250 ]}
  = Ret "25.0"
  /\ TuyaDpsConfig.get_values_to_set 1 heater scaled_dps device_heater (VInt 5)
     = Ret {[ "2" := VInt 50 ]}.
Proof. split; vm_compute; reflexivity. Qed.

(** Writing the value of an active condition also writes the constraint
    property. *)
Example condition_side_effect :
  TuyaDpsConfig.get_values_to_set 2 thermostat preset_dps
    {[ "1" := VBool true; "4" := VStr "eco" ]} (VStr "away")
  = Ret {[ "1" := VBool true; "4" := VStr "eco" ]}.
Proof. vm_compute. reflexivity. Qed.

(** * Further properties *)

(** ** Matching *)

(** X1: a score other than 0 is only given to a config that matches: when
    [match_quality] returns a non-zero score, [matches] returns true. *)
Theorem nonzero_quality_matches (self : device_doc) (raw : dps_dict) (q : Z) :
  TuyaDeviceConfig.match_quality self raw = Ret q -> q <> 0 ->
  TuyaDeviceConfig.matches self raw = Ret true.
Proof.
  rewrite match_quality_closed, matches_closed.
  destruct (forallb (compatible_b raw) (declared self)); [done |].
  intros [= <-] Hq. by destruct Hq.
Qed.

(** The schema of the example scores 100 on its snapshot, and matches it. *)
Lemma nonzero_quality_matches_witness :
  TuyaDeviceConfig.matches schema_1_2 snapshot_1_2_updated = Ret true.
Proof.
  apply (nonzero_quality_matches schema_1_2 snapshot_1_2_updated 100).
  - vm_compute. reflexivity.
  - discriminate.
Defined.

Lemma compatible_b_mono (raw raw' : dps_dict) (d : dps_doc) :
  raw ⊆ raw' -> compatible_b raw d = true -> compatible_b raw' d = true.
Proof.
  intros Hsub. unfold compatible_b.
  destruct (raw !! TuyaDpsConfig.id d) as [v |] eqn:E; [| done].
  by rewrite (lookup_weaken _ _ _ _ E Hsub).
Qed.

(** X2: properties that the config does not declare never stand in the way
    of a match: a config that matches a snapshot matches every snapshot
    that extends it. *)
Theorem matches_extended_snapshot (self : device_doc) (raw raw' : dps_dict) :
  raw ⊆ raw' ->
  TuyaDeviceConfig.matches self raw = Ret true ->
  TuyaDeviceConfig.matches self raw' = Ret true.
Proof.
  rewrite !matches_closed. intros Hsub [= H]. f_equal.
  apply forallb_forall. intros d Hd.
  apply (compatible_b_mono raw raw' d Hsub).
  by apply (proj1 (forallb_forall _ _) H).
Qed.

Lemma matches_extended_snapshot_witness :
  TuyaDeviceConfig.matches schema_1_2
    (<["9" := VStr "extra"]> snapshot_1_2_updated) = Ret true.
Proof.
  apply (matches_extended_snapshot schema_1_2 snapshot_1_2_updated).
  - apply insert_subseteq. vm_compute. reflexivity.
  - vm_compute. reflexivity.
Defined.

Lemma compatible_b_updated_at (raw : dps_dict) (v : val) (d : dps_doc) :
  compatible_b (<["updated_at" := v]> raw) d = compatible_b raw d.
Proof.
  unfold compatible_b. rewrite lookup_insert_ne; [done |].
  intros H. by apply (id_not_updated_at d).
Qed.

(** X3: the key ["updated_at"] plays no part in matching: adding it to a
    snapshot, or changing its value, changes neither the answer of
    [matches] nor the score of [match_quality]. *)
Theorem updated_at_is_ignored (self : device_doc) (raw : dps_dict) (v : val) :
  TuyaDeviceConfig.matches self (<["updated_at" := v]> raw)
  = TuyaDeviceConfig.matches self raw
  /\ TuyaDeviceConfig.match_quality self (<["updated_at" := v]> raw)
     = TuyaDeviceConfig.match_quality self raw.
Proof.
  rewrite !matches_closed, !match_quality_closed, delete_insert_eq.
  assert (forallb (compatible_b (<["updated_at" := v]> raw)) (declared self)
          = forallb (compatible_b raw) (declared self)) as ->; [| done].
  induction (declared self) as [| d ds IH]; simpl; [done |].
  by rewrite compatible_b_updated_at, IH.
Qed.

(** X4: [possible_matches] never raises; it yields, in the order of the
    catalog, exactly the configs all of whose declared properties are in
    the snapshot with a compatible value. *)
Theorem possible_matches_exact (configs : list device_doc) (raw : dps_dict) :
  exists found,
    possible_matches configs raw = Ret found
    /\ sublist found configs
    /\ (forall parsed, parsed ∈ found <->
          parsed ∈ configs /\ Forall (compatible raw) (declared parsed)).
Proof.
  induction configs as [| c configs (found & IH & Hsub & Hin)]; simpl.
  - exists []. split; [done |]. split; [done |].
    intros parsed. rewrite elem_of_nil. tauto.
  - rewrite matches_closed, IH. simpl.
    destruct (forallb (compatible_b raw) (declared c)) eqn:E.
    + exists (c :: found). split; [done |]. split; [by constructor |].
      intros parsed. rewrite !elem_of_cons, Hin. split.
      * intros [-> | [? ?]]; [| tauto]. split; [by left |].
        by apply forallb_compatible.
      * tauto.
    + exists found. split; [done |]. split; [by constructor |].
      intros parsed. rewrite elem_of_cons, Hin. split; [tauto |].
      intros [[-> | ?] Hc]; [| tauto].
      apply forallb_compatible in Hc. congruence.
Qed.

(** ** The rule lookup of the read path *)

Lemma _find_map_for_dps_loop_closed (value : val) (ms : list mapping_doc) :
  forall dflt,
    TuyaDpsConfig._find_map_for_dps_loop ms value dflt
    = match List.find (fun m => stringwise_equal value (m_dps_val m)) ms with
      | Some m => Some m
      | None =>
          match last (List.filter lacks_dps_val ms) with
          | Some m => Some m
          | None => dflt
          end
      end.
Proof.
  induction ms as [| m ms IH]; intros dflt; simpl; [done |].
  unfold stringwise_equal at 1, lacks_dps_val at 1.
  destruct (m_dps_val m) as [dv |]; simpl.
  - destruct (String.eqb (str dv) (str value)); [done | apply IH].
  - rewrite IH. destruct (List.find _ ms); [done |].
    symmetry. apply last_cons_or.
Qed.

(** X5: [_find_map_for_dps] returns the first rule whose [dps_val] equals
    the raw value as strings, wherever the rules lacking [dps_val] stand;
    when there is no such rule it returns the last rule lacking [dps_val],
    and none when every rule has a [dps_val]. A rule it returns is a rule
    of the mapping. *)
Theorem _find_map_for_dps_first_exact (self : dps_doc) (value : val) :
  TuyaDpsConfig._find_map_for_dps self value
  = first_exact_or_last_default (d_mapping self) value
  /\ (forall m, TuyaDpsConfig._find_map_for_dps self value = Some m ->
        m ∈ d_mapping self
        /\ (m_dps_val m = None ->
            Forall (fun m' => stringwise_equal value (m_dps_val m') = false)
              (d_mapping self))).
Proof.
  assert (TuyaDpsConfig._find_map_for_dps self value
          = first_exact_or_last_default (d_mapping self) value) as Heq.
  { unfold TuyaDpsConfig._find_map_for_dps.
    rewrite _find_map_for_dps_loop_closed. unfold first_exact_or_last_default.
    destruct (List.find _ _); [done |]. by destruct (last _). }
  split; [exact Heq |]. intros m Hm.
  split; [by apply (_find_map_for_dps_elem self value) |].
  intros Hnone. rewrite Heq in Hm. unfold first_exact_or_last_default in Hm.
  pose proof (find_first (fun m => stringwise_equal value (m_dps_val m))
                (d_mapping self)) as Hfirst.
  destruct (List.find _ (d_mapping self)) as [m' |]; [| done].
  destruct Hfirst as (_ & _ & _ & Hhit & _). injection Hm as ->.
  by rewrite Hnone in Hhit.
Qed.

(** ** The active condition *)

(** X6: [_active_condition] returns a condition exactly when it is the
    first of the rule's conditions whose [dps_val] the constraint property
    currently holds: the rule names a constraint that is a dps of the
    entity, the device has a value other than None for it, and that value
    equals the [dps_val] by [==]. *)
Theorem _active_condition_iff (entity : entity_doc) (mapping : mapping_doc)
    (device : dps_dict) (cond : condition_doc) :
  TuyaDpsConfig._active_condition entity mapping device = Some cond
  <-> active_condition entity mapping device cond.
Proof.
  split; [apply _active_condition_sound | apply _active_condition_spec].
Qed.

(** X7: without a constraint, without conditions, with a constraint that
    names no dps of the entity, or while the device has no value for the
    constraint property, no condition is active. *)
Theorem _active_condition_none (entity : entity_doc) (mapping : mapping_doc)
    (device : dps_dict) :
  (m_constraint mapping = None
   \/ m_conditions mapping = None
   \/ (exists constraint, m_constraint mapping = Some constraint
         /\ (TuyaEntityConfig.find_dps entity constraint = None
             \/ exists c_dps,
                  TuyaEntityConfig.find_dps entity constraint = Some c_dps
                  /\ device !! TuyaDpsConfig.id c_dps = None))) ->
  TuyaDpsConfig._active_condition entity mapping device = None.
Proof.
  unfold TuyaDpsConfig._active_condition.
  intros [-> | [H | (constraint & -> & H)]]; [done | |].
  - rewrite H. by destruct (m_constraint mapping).
  - destruct (m_conditions mapping); [| done].
    destruct H as [-> | (c_dps & -> & H)]; [done |].
    unfold get_property. by rewrite H.
Qed.

Lemma _active_condition_none_witness :
  TuyaDpsConfig._active_condition climate guarded_rule {[ "3" := VInt 20 ]} = None.
Proof.
  apply (_active_condition_none climate guarded_rule {[ "3" := VInt 20 ]}).
  right. right. exists "mode". split; [reflexivity |].
  right. exists mode_dps. split; reflexivity.
Defined.

(** ** The range *)

Lemma usable_range_bounds (r : option range_doc) :
  TuyaDpsConfig.usable_range r = true ->
  exists r' minimum maximum,
    r = Some r' /\ r_min r' = Some minimum /\ r_max r' = Some maximum.
Proof.
  destruct r as [r' |]; simpl; [| done].
  intros H. apply andb_true_iff in H as [H1 H2].
  apply bool_decide_eq_true in H1 as [minimum H1].
  apply bool_decide_eq_true in H2 as [maximum H2]. by exists r', minimum, maximum.
Qed.

Lemma range_closed (entity : entity_doc) (self : dps_doc) (device : dps_dict) :
  let mapping :=
    TuyaDpsConfig._find_map_for_dps self (get_property device (TuyaDpsConfig.id self)) in
  let cond := mapping ≫= fun m => TuyaDpsConfig._active_condition entity m device in
  TuyaDpsConfig.range entity self device
  = range_by_precedence (cond ≫= c_range) (mapping ≫= m_range) (d_range self).
Proof.
  intros mapping cond. subst cond mapping.
  unfold TuyaDpsConfig.range, range_by_precedence.
  destruct (TuyaDpsConfig._find_map_for_dps self _) as [m |]; reflexivity.
Qed.

Lemma range_bounds (entity : entity_doc) (self : dps_doc) (device : dps_dict)
    (r : range_doc) :
  TuyaDpsConfig.range entity self device = Some r ->
  exists minimum maximum, r_min r = Some minimum /\ r_max r = Some maximum.
Proof.
  rewrite range_closed. cbv zeta. unfold range_by_precedence.
  assert (forall o : option range_doc,
            TuyaDpsConfig.usable_range o = true -> o = Some r ->
            exists minimum maximum, r_min r = Some minimum /\ r_max r = Some maximum)
    as Hbounds.
  { intros o Ho ->.
    apply usable_range_bounds in Ho as (r' & mn & mx & [= <-] & ? & ?). eauto. }
  repeat (case_match; [by apply Hbounds |]). done.
Qed.

(** X8: [range] follows the precedence of the active condition of the rule
    that applies to the current raw value, then that rule, then the
    property itself, skipping a range that lacks its [min] or its [max];
    so a range that it returns always has both bounds. *)
Theorem range_precedence (entity : entity_doc) (self : dps_doc) (device : dps_dict) :
  let mapping :=
    TuyaDpsConfig._find_map_for_dps self (get_property device (TuyaDpsConfig.id self)) in
  let cond := mapping ≫= fun m => TuyaDpsConfig._active_condition entity m device in
  TuyaDpsConfig.range entity self device
  = range_by_precedence (cond ≫= c_range) (mapping ≫= m_range) (d_range self)
  /\ (forall r, TuyaDpsConfig.range entity self device = Some r ->
        exists minimum maximum, r_min r = Some minimum /\ r_max r = Some maximum).
Proof.
  intros mapping cond. split; [apply range_closed |].
  intros r. apply range_bounds.
Qed.

(** ** Subscripts that cannot fail *)

Lemma avoids_bind {A B : Type} (e : exn) (x : outcome A) (k : A -> outcome B) :
  avoids e x -> (forall a, avoids e (k a)) -> avoids e (bind x k).
Proof.
  unfold avoids. destruct x as [a | e' |]; simpl; [by auto | | done].
  intros H _ [= ->]. by apply H.
Qed.

Lemma avoids_fmap {A B : Type} (e : exn) (f : A -> B) (x : outcome A) :
  avoids e x -> avoids e (f <$> x).
Proof.
  unfold avoids. destruct x as [a | e' |]; cbn; [done | | done].
  intros H [= ->]. by apply H.
Qed.

Ltac avoid :=
  repeat first
    [ done
    | progress intros
    | apply avoids_bind
    | apply avoids_fmap
    | case_match ].

Lemma avoids_KeyError_num_to_float (a : num) : avoids KeyError (Py.num_to_float a).
Proof. destruct a; simpl; [| done]. unfold Py.f_of_Z. by case_match. Qed.

Lemma avoids_KeyError_mul (a b : val) : avoids KeyError (Py.mul a b).
Proof.
  unfold Py.mul. repeat case_match; try done;
    (apply avoids_bind; [apply avoids_KeyError_num_to_float |]; intros;
     apply avoids_bind; [apply avoids_KeyError_num_to_float |]; done).
Qed.

Lemma avoids_KeyError_truediv (a b : val) : avoids KeyError (Py.truediv a b).
Proof.
  unfold Py.truediv. repeat case_match; try done;
    first [ apply avoids_fmap; unfold Py.int_truediv; by repeat case_match
          | apply avoids_bind; [apply avoids_KeyError_num_to_float |]; intros;
            apply avoids_bind; [apply avoids_KeyError_num_to_float |]; intros;
            by case_match ].
Qed.

Lemma avoids_KeyError_round (v : val) : avoids KeyError (Py.round v).
Proof. destruct v as [| [] | | [] |]; done. Qed.

Lemma avoids_KeyError_to_float (v : val) : avoids KeyError (Py.to_float v).
Proof.
  destruct v as [| [] | | |]; simpl; try done; [| by case_match].
  unfold Py.f_of_Z. by case_match.
Qed.

Lemma avoids_KeyError_lt (a b : val) : avoids KeyError (Py.lt a b).
Proof. unfold Py.lt. repeat case_match; done. Qed.

Lemma avoids_KeyError_stepped (result step : val) :
  avoids KeyError (TuyaDpsConfig.stepped result step).
Proof.
  unfold TuyaDpsConfig.stepped.
  apply avoids_bind; [apply avoids_KeyError_to_float |]; intros.
  apply avoids_bind; [apply avoids_KeyError_truediv |]; intros.
  apply avoids_bind; [apply avoids_KeyError_round |]; intros.
  apply avoids_KeyError_mul.
Qed.

Lemma avoids_KeyError_coerce (self : dps_doc) (result : val) :
  avoids KeyError (TuyaDpsConfig.coerce self result).
Proof.
  unfold TuyaDpsConfig.coerce. apply avoids_bind; [| done].
  case_match; try done; apply avoids_fmap;
    [apply avoids_KeyError_round | apply avoids_KeyError_to_float].
Qed.

(** The range check reads [r["min"]] and [r["max"]] of a range that has
    both. *)
Lemma avoids_KeyError_check_range (entity : entity_doc) (self : dps_doc)
    (device : dps_dict) (value result : val) :
  avoids KeyError (TuyaDpsConfig.check_range entity self device value result).
Proof.
  unfold TuyaDpsConfig.check_range.
  destruct (TuyaDpsConfig.range entity self device) as [r |] eqn:Hr; [| done].
  destruct (range_bounds entity self device r Hr)
    as (minimum & maximum & -> & ->).
  apply avoids_bind; [apply avoids_KeyError_lt |]; intros.
  apply avoids_bind; [case_match; [done | apply avoids_KeyError_lt] |]; intros.
  by case_match.
Qed.

Lemma eq_None (v : val) : Py.eq v VNone = true -> v = VNone.
Proof. by destruct v. Qed.

(** An active condition has a [dps_val], and its rule a constraint. *)
Lemma active_condition_keys (entity : entity_doc) (mapping : mapping_doc)
    (device : dps_dict) (cond : condition_doc) :
  TuyaDpsConfig._active_condition entity mapping device = Some cond ->
  is_Some (m_constraint mapping) /\ is_Some (c_dps_val cond).
Proof.
  intros H. apply _active_condition_sound in H
    as (_ & _ & _ & _ & _ & (constraint & c_dps & Hc & _ & Hval & Heq) & _).
  split; [by rewrite Hc |].
  destruct (c_dps_val cond); [done |]. simpl in Heq.
  by apply eq_None in Heq.
Qed.

Ltac avoid_plain :=
  apply avoids_bind; [case_match; [apply avoids_KeyError_mul | done] |]; intros;
  apply avoids_bind; [| done];
  case_match; [apply avoids_KeyError_stepped | done].

Lemma avoids_KeyError_mapped_value (rec : dps_doc -> val -> outcome dps_dict)
    (entity : entity_doc) (self : dps_doc) (device : dps_dict) (value : val) :
  (forall d v, avoids KeyError (rec d v)) ->
  avoids KeyError (TuyaDpsConfig.mapped_value rec entity self device value).
Proof.
  intros Hrec. unfold TuyaDpsConfig.mapped_value.
  destruct (TuyaDpsConfig._find_map_for_value self value) as [mapping |]; [| done].
  destruct (TuyaDpsConfig._active_condition entity mapping device)
    as [cond |] eqn:Hcond; simpl.
  - destruct (active_condition_keys _ _ _ _ Hcond) as [[constraint Hc] [dv Hdv]].
    assert (avoids KeyError
              (TuyaDpsConfig.side_effect rec entity mapping cond value ∅)) as Hside.
    { unfold TuyaDpsConfig.side_effect. rewrite Hc, Hdv.
      case_match; [| done]. case_match; [| done].
      apply avoids_bind; [apply Hrec | done]. }
    destruct (TuyaDpsConfig.side_effect rec entity mapping cond value ∅)
      as [dm | e |]; simpl; [| intros [= ->]; by apply Hside | done].
    destruct (c_value_redirect cond) as [[redirect |] |]; simpl.
    + case_match; [apply avoids_fmap, Hrec | done].
    + avoid_plain.
    + destruct (m_value_redirect mapping) as [redirect |].
      * case_match; [apply avoids_fmap, Hrec | done].
      * avoid_plain.
  - destruct (m_value_redirect mapping) as [redirect |].
    + case_match; [apply avoids_fmap, Hrec | done].
    + avoid_plain.
Qed.

(** X9: no subscript of [get_values_to_set] can fail: the call never
    raises KeyError, since [r["min"]] and [r["max"]] are read of a range
    that has both bounds, and [mapping["constraint"]] and
    [cond["dps_val"]] only once a condition is active, which takes a
    constraint and a [dps_val]. *)
Theorem get_values_to_set_no_KeyError (fuel : nat) (entity : entity_doc)
    (device : dps_dict) :
  forall self value,
    TuyaDpsConfig.get_values_to_set fuel entity self device value <> Raise KeyError.
Proof.
  induction fuel as [| fuel IH]; intros self value; [done |].
  rewrite get_values_to_set_unfold. apply avoids_bind.
  - apply avoids_KeyError_mapped_value. intros d v. apply IH.
  - intros [redirected | [result dps_map]]; [done |].
    apply avoids_bind; [apply avoids_KeyError_check_range |]. intros _.
    apply avoids_bind; [apply avoids_KeyError_coerce | done].
Qed.

(** ** Redirects to a name that is not there *)

(** X10: a redirect in force that names no dps of the entity makes the
    call fail with AttributeError ([find_dps] gives None, on which the
    method is then looked up): [get_value] when no invalid condition is
    active, and [get_values_to_set] once the pending side effect, if any,
    has returned. *)
Theorem dangling_redirect_raises (fuel : nat) (entity : entity_doc) (self : dps_doc)
    (device : dps_dict) (redirect : string) :
  TuyaEntityConfig.find_dps entity redirect = None ->
  (forall value mapping,
     TuyaDpsConfig.destringified self (get_property device (TuyaDpsConfig.id self))
     = Ret value ->
     TuyaDpsConfig._find_map_for_dps self value = Some mapping ->
     effective_redirect entity mapping device = Some redirect ->
     active_invalid entity mapping device = false ->
     TuyaDpsConfig.get_value (S fuel) entity self device = Raise AttributeError)
  /\ (forall value mapping,
        TuyaDpsConfig._find_map_for_value self value = Some mapping ->
        effective_redirect entity mapping device = Some redirect ->
        returns (pending_side_effect
                   (fun d v => TuyaDpsConfig.get_values_to_set fuel entity d device v)
                   entity mapping device value) ->
        TuyaDpsConfig.get_values_to_set (S fuel) entity self device value
        = Raise AttributeError).
Proof.
  intros Hfind. split.
  - intros value mapping Hvalue Hmap Hred Hinv. simpl.
    unfold TuyaDpsConfig._map_from_dps. rewrite Hvalue. simpl. rewrite Hmap.
    unfold effective_redirect, active_invalid, flagged_invalid in *.
    destruct (TuyaDpsConfig._active_condition entity mapping device) as [cond |].
    + rewrite Hinv, Hred. by rewrite Hfind.
    + rewrite Hred. by rewrite Hfind.
  - intros value mapping Hmap Hred [dm Hside].
    rewrite get_values_to_set_unfold. unfold TuyaDpsConfig.mapped_value.
    rewrite Hmap. unfold effective_redirect, pending_side_effect in *.
    destruct (TuyaDpsConfig._active_condition entity mapping device) as [cond |].
    + rewrite Hside. simpl. rewrite Hred. by rewrite Hfind.
    + simpl. rewrite Hred. by rewrite Hfind.
Qed.

Lemma dangling_redirect_raises_witness :
  TuyaDpsConfig.get_value 1 climate dangling_dps device_mode_on = Raise AttributeError
  /\ TuyaDpsConfig.get_values_to_set 1 climate dangling_dps device_mode_on (VInt 3)
     = Raise AttributeError.
Proof.
  pose proof (dangling_redirect_raises 0 climate dangling_dps device_mode_on
                "nowhere" eq_refl) as [Hread Hwrite].
  split.
  - apply (Hread VNone (default plain_mapping (head (d_mapping dangling_dps))));
      reflexivity.
  - apply (Hwrite (VInt 3) (default plain_mapping (head (d_mapping dangling_dps))));
      [reflexivity | reflexivity |].
    exists ∅. reflexivity.
Defined.

(** ** What [get_values_to_set] stores *)

Lemma coerce_well_typed (self : dps_doc) (result v : val) :
  TuyaDpsConfig.coerce self result = Ret v -> well_typed self v.
Proof.
  unfold TuyaDpsConfig.coerce, well_typed. intros H.
  apply bind_Ret in H as (v' & Hv' & H).
  destruct (TuyaDpsConfig.stringify self).
  - injection H as <-. eauto.
  - injection H as <-. destruct (TuyaDpsConfig.type self); simpl in *.
    + by injection Hv' as <-.
    + apply fmap_Ret in Hv' as (z & _ & <-). done.
    + by injection Hv' as <-.
    + apply fmap_Ret in Hv' as (f & _ & <-). done.
Qed.

(** With no redirect in force, the first part of [get_values_to_set] goes
    on to the range check. *)
Lemma mapped_value_no_redirect (rec : dps_doc -> val -> outcome dps_dict)
    (entity : entity_doc) (self : dps_doc) (device : dps_dict) (value : val)
    (r : dps_dict + val * dps_dict) :
  no_redirect_in_force entity self device value ->
  TuyaDpsConfig.mapped_value rec entity self device value = Ret r ->
  exists result dps_map, r = inr (result, dps_map).
Proof.
  unfold no_redirect_in_force, TuyaDpsConfig.mapped_value, effective_redirect.
  destruct (TuyaDpsConfig._find_map_for_value self value) as [mapping |];
    [| intros _ [= <-]; eauto].
  destruct (TuyaDpsConfig._active_condition entity mapping device) as [cond |];
    simpl; intros Hred H.
  - destruct (TuyaDpsConfig.side_effect _ _ _ _ _ _) as [dm | |]; simpl in H;
      [| done | done].
    rewrite Hred in H.
    apply bind_Ret in H as (r1 & _ & H). apply bind_Ret in H as (r2 & _ & H).
    injection H as <-. eauto.
  - rewrite Hred in H.
    apply bind_Ret in H as (r1 & _ & H). apply bind_Ret in H as (r2 & _ & H).
    injection H as <-. eauto.
Qed.

(** X11: when no redirect is in force and [get_values_to_set] returns, the
    map has an entry for the property's own id, and the value stored there
    is of the declared type of the property (an int for [integer] and
    [bitfield], a bool, a float or a string), so that it passes
    [_typematch], or a string when the property is stringified. *)
Theorem get_values_to_set_stores_typed (fuel : nat) (entity : entity_doc)
    (self : dps_doc) (device : dps_dict) (value : val) (m : dps_dict) :
  no_redirect_in_force entity self device value ->
  TuyaDpsConfig.get_values_to_set fuel entity self device value = Ret m ->
  exists v,
    m !! TuyaDpsConfig.id self = Some v
    /\ well_typed self v
    /\ (TuyaDpsConfig.stringify self = false ->
        _typematch (TuyaDpsConfig.type self) v = Ret true).
Proof.
  intros Hred H. destruct fuel as [| fuel]; [done |].
  rewrite get_values_to_set_unfold in H.
  apply bind_Ret in H as (r & Hr & H).
  destruct (mapped_value_no_redirect _ _ _ _ _ _ Hred Hr)
    as (result & dps_map & ->).
  apply bind_Ret in H as ([] & _ & H). apply bind_Ret in H as (v & Hv & H).
  injection H as <-. exists v. split; [apply lookup_insert_eq |].
  pose proof (coerce_well_typed _ _ _ Hv) as Htyped. split; [done |].
  intros Hs. unfold well_typed in Htyped. rewrite Hs in Htyped.
  rewrite _typematch_closed. unfold typematch_b. by rewrite Htyped.
Qed.

Lemma get_values_to_set_stores_typed_witness :
  exists v,
    ({[ "2" := VInt 50 ]} : dps_dict) !! TuyaDpsConfig.id scaled_dps = Some v
    /\ well_typed scaled_dps v
    /\ (TuyaDpsConfig.stringify scaled_dps = false ->
        _typematch (TuyaDpsConfig.type scaled_dps) v = Ret true).
Proof.
  apply (get_values_to_set_stores_typed 1 heater scaled_dps device_heater (VInt 5)).
  - reflexivity.
  - vm_compute. reflexivity.
Defined.

(** X12: the side effect of a condition. When the rule that gives the value
    has an active condition whose [value] equals the value asked for, and
    no redirect is in force, the map that [get_values_to_set] returns is
    the map that setting the constraint property to the [dps_val] of the
    condition returns, with the entry of the property itself put on top. *)
Theorem side_effect_sets_constraint (fuel : nat) (entity : entity_doc)
    (self : dps_doc) (device : dps_dict) (value : val)
    (mapping : mapping_doc) (cond : condition_doc) (m : dps_dict) :
  TuyaDpsConfig._find_map_for_value self value = Some mapping ->
  TuyaDpsConfig._active_condition entity mapping device = Some cond ->
  Py.eq (default VNone (c_value cond)) value = true ->
  effective_redirect entity mapping device = None ->
  TuyaDpsConfig.get_values_to_set fuel entity self device value = Ret m ->
  exists constraint c_dps dv settings v,
    m_constraint mapping = Some constraint
    /\ TuyaEntityConfig.find_dps entity constraint = Some c_dps
    /\ c_dps_val cond = Some dv
    /\ TuyaDpsConfig.get_values_to_set (pred fuel) entity c_dps device dv
       = Ret settings
    /\ well_typed self v
    /\ m = <[TuyaDpsConfig.id self := v]> settings.
Proof.
  intros Hfind Hact Heq Hred H. destruct fuel as [| fuel]; [done |].
  rewrite get_values_to_set_unfold in H. apply bind_Ret in H as (r & Hr & H).
  unfold TuyaDpsConfig.mapped_value in Hr. rewrite Hfind, Hact in Hr.
  unfold effective_redirect in Hred. rewrite Hact in Hred.
  unfold TuyaDpsConfig.side_effect in Hr. rewrite Heq in Hr.
  destruct (m_constraint mapping) as [constraint |] eqn:Hc; [| done].
  destruct (TuyaEntityConfig.find_dps entity constraint) as [c_dps |] eqn:Hdps;
    [| done].
  destruct (c_dps_val cond) as [dv |] eqn:Hdv; [| done].
  simpl in *.
  destruct (TuyaDpsConfig.get_values_to_set fuel entity c_dps device dv)
    as [settings | |] eqn:Hset; simpl in Hr; [| done | done].
  rewrite Hred in Hr.
  apply bind_Ret in Hr as (r1 & _ & Hr). apply bind_Ret in Hr as (r2 & _ & Hr).
  injection Hr as <-.
  apply bind_Ret in H as ([] & _ & H). apply bind_Ret in H as (v & Hv & H).
  injection H as <-.
  exists constraint, c_dps, dv, settings, v.
  rewrite (right_id_L ∅ (∪)).
  repeat split; try done. by eapply coerce_well_typed.
Qed.

Lemma side_effect_sets_constraint_witness :
  exists constraint c_dps dv settings v,
    Some "mode" = Some constraint
    /\ TuyaEntityConfig.find_dps thermostat constraint = Some c_dps
    /\ Some (VBool true) = Some dv
    /\ TuyaDpsConfig.get_values_to_set 1 thermostat c_dps
         {[ "1" := VBool true; "4" := VStr "eco" ]} dv = Ret settings
    /\ well_typed preset_dps v
    /\ ({[ "1" := VBool true; "4" := VStr "eco" ]} : dps_dict)
       = <[TuyaDpsConfig.id preset_dps := v]> settings.
Proof.
  apply (side_effect_sets_constraint 2 thermostat preset_dps
           {[ "1" := VBool true; "4" := VStr "eco" ]} (VStr "away")
           (hd scaled_default (d_mapping preset_dps))
           (hd (plain_condition VNone) (default [] (m_conditions
              (hd scaled_default (d_mapping preset_dps)))))).
  - reflexivity.
  - vm_compute. reflexivity.
  - reflexivity.
  - vm_compute. reflexivity.
  - vm_compute. reflexivity.
Defined.

Lemma stepped_int (result : val) (s : Z) (r : val) :
  TuyaDpsConfig.stepped result (VInt s) = Ret r -> exists n, r = VInt (s * n).
Proof.
  unfold TuyaDpsConfig.stepped. intros H.
  apply bind_Ret in H as (f & _ & H). apply bind_Ret in H as (q & _ & H).
  apply bind_Ret in H as (n & _ & H). injection H as <-. eauto.
Qed.

(** X13: an integer step quantises what is written. When the step in force
    for the rule that gives the value is the integer [s], no redirect is in
    force, and the property is an integer that is not stringified, the value
    that [get_values_to_set] stores for the property is a multiple of [s]. *)
Theorem integer_step_quantises (fuel : nat) (entity : entity_doc)
    (self : dps_doc) (device : dps_dict) (value : val)
    (mapping : mapping_doc) (s : Z) (m : dps_dict) :
  TuyaDpsConfig._find_map_for_value self value = Some mapping ->
  effective_redirect entity mapping device = None ->
  effective_step entity mapping device = VInt s ->
  TuyaDpsConfig.type self = Py.Tint ->
  TuyaDpsConfig.stringify self = false ->
  TuyaDpsConfig.get_values_to_set fuel entity self device value = Ret m ->
  exists n, m !! TuyaDpsConfig.id self = Some (VInt (s * n)).
Proof.
  intros Hfind Hred Hstep Htype Hstr H. destruct fuel as [| fuel]; [done |].
  rewrite get_values_to_set_unfold in H. apply bind_Ret in H as (r & Hr & H).
  assert (exists r1 result dps_map,
             r = inr (result, dps_map)
             /\ (if is_number r1 then TuyaDpsConfig.stepped r1 (VInt s)
                 else Ret r1) = Ret result) as (r1 & result & dps_map & -> & Hq).
  { unfold TuyaDpsConfig.mapped_value in Hr. rewrite Hfind in Hr.
    unfold effective_redirect in Hred. unfold effective_step in Hstep.
    destruct (TuyaDpsConfig._active_condition entity mapping device) as [cond |];
      simpl in Hr.
    - destruct (TuyaDpsConfig.side_effect _ _ _ _ _ _) as [dm | |]; simpl in Hr;
        [| done | done].
      rewrite Hred in Hr. cbv zeta in Hstep. rewrite Hstep in Hr.
      apply bind_Ret in Hr as (r1 & _ & Hr). apply bind_Ret in Hr as (r2 & Hq & Hr).
      injection Hr as <-. exists r1, r2, dm. done.
    - rewrite Hred in Hr. cbv zeta in Hstep. rewrite Hstep in Hr.
      apply bind_Ret in Hr as (r1 & _ & Hr). apply bind_Ret in Hr as (r2 & Hq & Hr).
      injection Hr as <-. exists r1, r2, ∅. done. }
  apply bind_Ret in H as ([] & _ & H). apply bind_Ret in H as (v & Hv & H).
  injection H as <-. rewrite lookup_insert_eq.
  unfold TuyaDpsConfig.coerce in Hv. rewrite Htype, Hstr in Hv.
  apply bind_Ret in Hv as (v' & Hv' & Hv). injection Hv as <-.
  apply fmap_Ret in Hv' as (z & Hz & <-).
  destruct (is_number r1) eqn:Hnum.
  - apply stepped_int in Hq as (n & ->). simpl in Hz. injection Hz as <-. eauto.
  - injection Hq as <-. by destruct r1.
Qed.

Lemma integer_step_quantises_witness :
  exists n, ({[ "9" := VInt 25 ]} : dps_dict) !! TuyaDpsConfig.id stepped_dps
            = Some (VInt (5 * n)).
Proof.
  apply (integer_step_quantises 1 (entity_of [stepped_dps]) stepped_dps ∅ (VInt 23)
           (hd scaled_default (d_mapping stepped_dps))).
  - reflexivity.
  - reflexivity.
  - reflexivity.
  - reflexivity.
  - reflexivity.
  - vm_compute. reflexivity.
Defined.

(** ** Round trips *)





(** ** Text of integers *)

Lemma digit_val_char (n : N) :
  (n < 10)%N -> Py.digit_val (pretty_N_char n) = Some (Z.of_N n).
Proof.
  intros H. replace n with (N.of_nat (N.to_nat n)) by lia.
  assert (N.to_nat n < 10)%nat as Hk by lia. revert Hk.
  generalize (N.to_nat n). intros k Hk.
  do 10 (destruct k as [| k]; [reflexivity |]). lia.
Qed.

Lemma digit_is_plain (c : ascii) (d : Z) :
  Py.digit_val c = Some d ->
  Py.is_space c = false /\ Ascii.eqb c "-" = false /\ Ascii.eqb c "+" = false.
Proof.
  intros H. repeat split.
  - unfold Py.digit_val in H. unfold Py.is_space.
    destruct (_ && _) eqn:E in H; [| done]. lia.
  - destruct (Ascii.eqb_spec c "-"); [by subst |done].
  - destruct (Ascii.eqb_spec c "+"); [by subst |done].
Qed.

Lemma pretty_N_go_read (x : N) :
  exists (ds : list ascii) (p k : Z),
    Forall (fun c => is_Some (Py.digit_val c)) ds
    /\ ((0 < x)%N -> ds <> [])
    /\ (forall s, list_ascii_of_string (pretty_N_go x s) = ds ++ list_ascii_of_string s)
    /\ (forall acc n rest,
          Py.digits_rest acc n (ds ++ rest)
          = Py.digits_rest (acc * p + Z.of_N x) (n + k) rest).
Proof.
  induction (N.lt_wf_0 x) as [x _ IH].
  destruct (decide (x = 0)%N) as [-> | Hx].
  { exists [], 1, 0. split; [done |]. split; [lia |]. split; [done |].
    intros acc n rest. simpl. f_equal; lia. }
  destruct (IH (x `div` 10)%N) as (ds & p & k & Hds & _ & Htext & Hread).
  { apply N.div_lt; lia. }
  pose proof (digit_val_char (x `mod` 10)%N) as Hc.
  specialize (Hc ltac:(apply N.mod_lt; lia)).
  exists (ds ++ [pretty_N_char (x `mod` 10)]), (10 * p), (k + 1).
  split; [| split; [| split]].
  - apply Forall_app. split; [done |]. apply Forall_singleton. by rewrite Hc.
  - intros _. by destruct ds.
  - intros s. rewrite pretty_N_go_step by lia. rewrite Htext. simpl.
    by rewrite <- app_assoc.
  - intros acc n rest. rewrite <- app_assoc. rewrite Hread. simpl. rewrite Hc.
    f_equal; [| lia].
    pose proof (N.div_mod x 10). lia.
Qed.

Lemma lstrip_plain (l : list ascii) :
  Forall (fun c => Py.is_space c = false) l -> Py.lstrip l = l.
Proof. destruct 1 as [| c l Hc _]; simpl; [done | by rewrite Hc]. Qed.

Lemma parse_int_pretty (z : Z) : Py.parse_int (pretty z) = Some z.
Proof.
  assert (forall q : positive,
             exists ds k, list_ascii_of_string (pretty q) = ds
                          /\ Forall (fun c => is_Some (Py.digit_val c)) ds
                          /\ Py.digitpart 0 ds = Some (Z.pos q, k, [])) as Hpos.
  { intros q. destruct (pretty_N_go_read (N.pos q)) as (ds & p & k & Hds & Hne & Htext & Hread).
    exists ds, k. change (pretty q) with (pretty_N_go (N.pos q) "").
    rewrite Htext. simpl. rewrite app_nil_r.
    repeat split; [done |].
    specialize (Hread 0 0 []). rewrite app_nil_r in Hread.
    destruct ds as [| c ds]; [by destruct Hne |].
    apply Forall_cons in Hds as [[d Hd] _].
    assert (Py.digitpart 0 (c :: ds) = Some (Py.digits_rest 0 0 (c :: ds))) as ->
      by (simpl; by rewrite Hd).
    by rewrite Hread. }
  assert (forall l, Forall (fun c => is_Some (Py.digit_val c)) l ->
                    Forall (fun c => Py.is_space c = false) l) as Hplain.
  { intros l Hl. eapply Forall_impl; [exact Hl |].
    intros c [d Hd]. by apply (digit_is_plain c d). }
  destruct z as [| q | q].
  - reflexivity.
  - destruct (Hpos q) as (ds & k & Htext & Hds & Hread).
    unfold Py.parse_int, Py.strip. change (pretty (Z.pos q)) with (pretty q).
    rewrite Htext. rewrite (lstrip_plain ds) by auto.
    rewrite (lstrip_plain (rev ds)) by (apply List.Forall_rev; auto).
    rewrite rev_involutive.
    destruct ds as [| c ds]; [done |].
    apply Forall_cons in Hds as [[d Hd] _].
    destruct (digit_is_plain c d Hd) as (_ & Hm & Hp).
    unfold Py.sign_of. rewrite Hm, Hp. by rewrite Hread.
  - destruct (Hpos q) as (ds & k & Htext & Hds & Hread).
    unfold Py.parse_int, Py.strip.
    change (pretty (Z.neg q)) with ("-" +:+ pretty q).
    change (list_ascii_of_string ("-" +:+ pretty q))
      with ("-"%char :: list_ascii_of_string (pretty q)).
    rewrite Htext.
    assert (Forall (fun c => Py.is_space c = false) ("-"%char :: ds)) as Hall.
    { apply Forall_cons. split; [done | auto]. }
    rewrite (lstrip_plain ("-"%char :: ds)) by done.
    rewrite (lstrip_plain (rev ("-"%char :: ds))) by (by apply List.Forall_rev).
    rewrite rev_involutive.
    simpl. by rewrite Hread.
Qed.

(** X15: a stringified integer survives the round trip. For a stringified
    integer property with no rule for the value and a range check that
    passes, [get_values_to_set] stores the decimal text of the integer
    under the id of the property; that text is compatible with the
    declared type for [_typematch]; and [get_value] on a device that holds
    the text returns the integer again. The cap that later versions of
    Python put on the digits of an integer is left out, as in [parse_int]. *)
Theorem stringified_integer_round_trip (fuel : nat) (entity : entity_doc)
    (self : dps_doc) (device device' : dps_dict) (z : Z) :
  TuyaDpsConfig.stringify self = true ->
  TuyaDpsConfig.type self = Py.Tint ->
  TuyaDpsConfig._find_map_for_value self (VInt z) = None ->
  TuyaDpsConfig._find_map_for_dps self (VInt z) = None ->
  TuyaDpsConfig.check_range entity self device (VInt z) (VInt z) = Ret () ->
  device' !! TuyaDpsConfig.id self = Some (VStr (pretty z)) ->
  TuyaDpsConfig.get_values_to_set (S fuel) entity self device (VInt z)
  = Ret {[ TuyaDpsConfig.id self := VStr (pretty z) ]}
  /\ _typematch (TuyaDpsConfig.type self) (VStr (pretty z)) = Ret true
  /\ TuyaDpsConfig.get_value (S fuel) entity self device' = Ret (VInt z).
Proof.
  intros Hstr Ht Hwrite Hread Hrange Hdev. repeat split.
  - rewrite get_values_to_set_unfold. unfold TuyaDpsConfig.mapped_value.
    rewrite Hwrite. simpl. rewrite Hrange. simpl.
    unfold TuyaDpsConfig.coerce. rewrite Ht, Hstr. simpl.
    by rewrite insert_empty.
  - rewrite _typematch_closed, Ht. unfold typematch_b. simpl.
    rewrite parse_int_pretty. by rewrite bool_decide_eq_true_2.
  - simpl. unfold get_property. rewrite Hdev. simpl.
    unfold TuyaDpsConfig._map_from_dps, TuyaDpsConfig.destringified.
    rewrite Hstr, Ht. simpl. rewrite parse_int_pretty. simpl.
    by rewrite Hread.
Qed.

Lemma stringified_integer_round_trip_witness :
  TuyaDpsConfig.get_values_to_set 1 (entity_of [countdown_dps]) countdown_dps
    ∅ (VInt (-30))
  = Ret {[ TuyaDpsConfig.id countdown_dps := VStr (pretty (-30)) ]}
  /\ _typematch (TuyaDpsConfig.type countdown_dps) (VStr (pretty (-30))) = Ret true
  /\ TuyaDpsConfig.get_value 1 (entity_of [countdown_dps]) countdown_dps
       {[ "10" := VStr "-30" ]} = Ret (VInt (-30)).
Proof.
  apply (stringified_integer_round_trip 0 (entity_of [countdown_dps]) countdown_dps
           ∅ {[ "10" := VStr "-30" ]} (-30)); reflexivity.
Defined.

(** ** File names *)

(** The index of the last [c] of a list, as [splitext] computes it. *)
Lemma last_index_absent (c : ascii) (l : list ascii) :
  forall (g : nat -> nat) (best : Z),
    c ∉ l ->
    fold_left (fun best '(i, x) => if Ascii.eqb x c then Z.of_nat i else best)
      (imap (fun i x => (g i, x)) l) best
    = best.
Proof.
  induction l as [| x l IH]; intros g best Hc; [done |].
  apply not_elem_of_cons in Hc as [Hx Hl]. simpl.
  destruct (Ascii.eqb_spec x c) as [-> | _]; [done |].
  by apply (IH (g ∘ S)).
Qed.

Lemma last_index_found (c : ascii) (l1 l2 : list ascii) :
  forall (g : nat -> nat) (best : Z),
    c ∉ l2 ->
    fold_left (fun best '(i, x) => if Ascii.eqb x c then Z.of_nat i else best)
      (imap (fun i x => (g i, x)) (l1 ++ c :: l2)) best
    = Z.of_nat (g (length l1)).
Proof.
  induction l1 as [| x l1 IH]; intros g best Hc; simpl.
  - rewrite Ascii.eqb_refl. by apply (last_index_absent c l2 (g ∘ S)).
  - by apply (IH (g ∘ S)).
Qed.

Lemma list_ascii_of_string_app (s t : string) :
  list_ascii_of_string (s +:+ t) = list_ascii_of_string s ++ list_ascii_of_string t.
Proof. induction s as [| a s IH]; simpl; [done | by rewrite IH]. Qed.

Lemma splitext_yaml (stem : string) :
  "/"%char ∉ list_ascii_of_string stem ->
  splitext (stem +:+ ".yaml")
  = if existsb (fun x => negb (Ascii.eqb x ".")) (list_ascii_of_string stem)
    then (stem, ".yaml") else (stem +:+ ".yaml", "").
Proof.
  intros Hsep. unfold splitext. rewrite list_ascii_of_string_app.
  pose proof (string_of_list_ascii_of_string stem) as Hstem.
  set (l := list_ascii_of_string stem) in *.
  change (list_ascii_of_string ".yaml") with ("."%char :: list_ascii_of_string "yaml").
  assert (forall c : ascii,
             c <> "y"%char -> c <> "a"%char -> c <> "m"%char -> c <> "l"%char ->
             c ∉ list_ascii_of_string "yaml") as Hyaml.
  { intros c ? ? ? ?. simpl. rewrite !not_elem_of_cons.
    repeat split; try done. apply not_elem_of_nil. }
  rewrite (last_index_found "." l _ (fun i => i)) by (by apply Hyaml).
  rewrite (last_index_absent "/" _ (fun i => i)).
  2: { rewrite not_elem_of_app, not_elem_of_cons.
       repeat split; [done | done |]. by apply Hyaml. }
  replace (-1 <? Z.of_nat (length l)) with true by (symmetry; apply Z.ltb_lt; lia).
  rewrite Nat2Z.id. change (Z.to_nat (-1 + 1)) with 0%nat. rewrite drop_0.
  rewrite take_app_length, drop_app_length. simpl andb.
  destruct (existsb _ l); [| done].
  by rewrite Hstem.
Qed.

(** X16: the legacy type of a config that declares none. For a config
    loaded from a file [stem.yaml], with no separator in the stem, the
    legacy type is the stem when the stem has a character other than a dot;
    when the stem is made of dots only, or is empty, the legacy type is the
    whole file name, extension included. *)
Theorem legacy_type_of_yaml_file (self : device_doc) (stem : string) :
  dev_legacy_type self = None ->
  TuyaDeviceConfig.config self = stem +:+ ".yaml" ->
  "/"%char ∉ list_ascii_of_string stem ->
  (Exists (fun c => c <> "."%char) (list_ascii_of_string stem) ->
   TuyaDeviceConfig.legacy_type self = stem)
  /\ (Forall (fun c => c = "."%char) (list_ascii_of_string stem) ->
      TuyaDeviceConfig.legacy_type self = stem +:+ ".yaml").
Proof.
  intros Hnone Hname Hsep. unfold TuyaDeviceConfig.legacy_type.
  rewrite Hnone, Hname, splitext_yaml by done. simpl.
  destruct (existsb _ _) eqn:E.
  - split; [done |]. intros Hdots.
    apply existsb_exists in E as (c & Hin & Hc).
    rewrite Forall_forall in Hdots. apply list_elem_of_In, Hdots in Hin as ->.
    done.
  - split; [| done]. intros Hex. apply Exists_exists in Hex as (c & Hin & Hc).
    assert (existsb (fun x => negb (Ascii.eqb x ".")) (list_ascii_of_string stem)
            = true) as E'.
    { apply existsb_exists. exists c. split; [by apply list_elem_of_In |].
      by destruct (Ascii.eqb_spec c "."). }
    congruence.
Qed.

Lemma legacy_type_of_yaml_file_witness :
  TuyaDeviceConfig.legacy_type kogan_heater = "kogan_heater".
Proof.
  apply (legacy_type_of_yaml_file kogan_heater "kogan_heater").
  - reflexivity.
  - reflexivity.
  - apply (bool_decide_unpack _). vm_compute. exact I.
  - simpl. by left.
Defined.

(** ** The step of a property *)

Lemma truediv_float (a b v : val) :
  Py.truediv a b = Ret v -> exists f, v = VFloat f.
Proof.
  unfold Py.truediv. intros H.
  destruct (Py.as_num a) as [[x | fx] |], (Py.as_num b) as [[y | fy] |];
    try done.
  - apply fmap_Ret in H as (f & _ & <-). eauto.
  - apply bind_Ret in H as (f1 & _ & H). apply bind_Ret in H as (f2 & _ & H).
    destruct (Py.f_is_zero f2); [done |]. injection H as <-. eauto.
  - apply bind_Ret in H as (f1 & _ & H). apply bind_Ret in H as (f2 & _ & H).
    destruct (Py.f_is_zero f2); [done |]. injection H as <-. eauto.
  - apply bind_Ret in H as (f1 & _ & H). apply bind_Ret in H as (f2 & _ & H).
    destruct (Py.f_is_zero f2); [done |]. injection H as <-. eauto.
Qed.

(** X17: [step] gives a float, never an int, whatever the config holds:
    the quotient is a true division. With no rule for the current raw
    value it is 1.0. *)
Theorem step_is_float (entity : entity_doc) (self : dps_doc) (device : dps_dict) :
  (forall v, step entity self device = Ret v -> exists f, v = VFloat f)
  /\ (TuyaDpsConfig._find_map_for_dps self
        (get_property device (TuyaDpsConfig.id self)) = None ->
      step entity self device = Ret (VFloat (Py.f_of_ratio 1 1))).
Proof.
  split.
  - intros v H. unfold step in H.
    destruct (TuyaDpsConfig._find_map_for_dps _ _) as [mapping |];
      [destruct (TuyaDpsConfig._active_condition _ _ _) |];
      by apply truediv_float in H.
  - intros Hnone. unfold step. rewrite Hnone. vm_compute. reflexivity.
Qed.

(** ** Scaling on the write path *)

Lemma lt_int (a b : Z) : bool_decide (Some (a ?= b) = Some Lt) = (a <? b).
Proof.
  unfold Z.ltb.
  destruct (a ?= b);
    (by rewrite bool_decide_eq_false_2) || (by rewrite bool_decide_eq_true_2).
Qed.

(** X18: scaling is exact on integers, and the range is in raw units. For
    an integer property that is not stringified, when the value [z] is
    given by a rule that only scales, by the integer [s], and the range in
    force has the integer bounds [lo] and [hi], [get_values_to_set] stores
    exactly [z * s] when [lo <= z * s <= hi], and raises the [ValueError]
    of the range violation otherwise: it is the scaled value that is held
    against the bounds, and no float arithmetic is involved. *)
Theorem scaled_write_in_raw_units (fuel : nat) (entity : entity_doc)
    (self : dps_doc) (device : dps_dict) (m : mapping_doc) (z s lo hi : Z) :
  TuyaDpsConfig.stringify self = false ->
  TuyaDpsConfig.type self = Py.Tint ->
  TuyaDpsConfig._find_map_for_value self (VInt z) = Some m ->
  scales_by m s ->
  TuyaDpsConfig.range entity self device
  = Some {| r_min := Some (VInt lo); r_max := Some (VInt hi) |} ->
  TuyaDpsConfig.get_values_to_set (S fuel) entity self device (VInt z)
  = if (lo <=? z * s) && (z * s <=? hi)
    then Ret {[ TuyaDpsConfig.id self := VInt (z * s) ]}
    else Raise (ValueError (TuyaDpsConfig.range_message self (VInt z)
                              (VInt lo) (VInt hi))).
Proof.
  intros Hstr Ht Hfind (Hm1 & Hm2 & Hm3 & Hm4 & Hm5) Hrange.
  rewrite get_values_to_set_unfold.
  assert (TuyaDpsConfig.mapped_value
            (fun d v => TuyaDpsConfig.get_values_to_set fuel entity d device v)
            entity self device (VInt z)
          = Ret (inr (VInt (z * s), ∅))) as ->.
  { unfold TuyaDpsConfig.mapped_value, TuyaDpsConfig._active_condition.
    rewrite Hfind, Hm1, Hm2, Hm3, Hm4, Hm5. simpl.
    destruct (decide (s = 1)) as [-> | Hs].
    - simpl. by rewrite Z.mul_1_r.
    - assert (Py.eq (VInt s) (VInt 1) = false) as ->; [| done].
      apply bool_decide_eq_false_2. intros [= H]. by apply Z.compare_eq in H. }
  simpl. unfold TuyaDpsConfig.check_range. rewrite Hrange. simpl.
  unfold Py.gt, Py.lt. simpl. rewrite !lt_int.
  destruct (Z.leb_spec lo (z * s)) as [Hlo | Hlo],
    (Z.ltb_spec (z * s) lo) as [Hlo' | Hlo']; try lia; simpl; [| done].
  destruct (Z.leb_spec (z * s) hi) as [Hhi | Hhi],
    (Z.ltb_spec hi (z * s)) as [Hhi' | Hhi']; try lia; simpl; [| done].
  unfold TuyaDpsConfig.coerce. rewrite Ht, Hstr. simpl.
  by rewrite insert_empty.
Qed.

Lemma scaled_write_in_raw_units_witness :
  TuyaDpsConfig.get_values_to_set 1 (entity_of [tenths_dps]) tenths_dps ∅ (VInt 21)
  = Ret {[ TuyaDpsConfig.id tenths_dps := VInt 210 ]}.
Proof.
  apply (scaled_write_in_raw_units 0 (entity_of [tenths_dps]) tenths_dps ∅
           (hd scaled_default (d_mapping tenths_dps)) 21 10 50 350).
  - reflexivity.
  - reflexivity.
  - reflexivity.
  - repeat split.
  - reflexivity.
Defined.
